(** * absl::DenseSet: a sorted, duplicate-free std::vector behaving like std::set

    Shallow embedding of [absl/container/dense_set.h] and of the comparator and
    allocator helpers of its test-suite, followed by the proofs of the
    properties stated for it.

    Conventions of the embedding
    - [std::vector<T, A>] is a record holding the element sequence and the
      allocator object; capacity is not modelled ([reserve] changes nothing
      that can be observed through the set).
    - An iterator is the index of the element it points to; [begin()] is 0 and
      [end()] is the size.  Dereferencing goes through [nth_error]; operations
      whose iterator argument is not valid (undefined behaviour in C++) return
      [None].
    - A member function that modifies its object returns the new object; one
      that modifies two objects ([this] and [other]) returns the pair
      [(this, other)].
    - The comparator is an object of type [C]; what it computes may depend on
      the object ([call c x y] is [c(x, y)]). *)

From Stdlib Require Import List Arith PeanoNat Bool Lia ZArith.
From Stdlib Require Import Sorting.Sorted Sorting.Permutation.
Import ListNotations.

Set Implicit Arguments.

(** ** Template parameters *)

(** The comparison functor type [C]: calling an object, the default
    constructed object [C()], and the state in which an object is left after
    it has been the source of a move. *)
Class Compare (T C : Type) : Type := {
  call : C -> T -> T -> bool;
  C_default : C;
  C_moved_from : C -> C
}.

(** The allocator type [A]: the default constructed allocator
    [allocator_type()] and the propagation traits std::vector consults. *)
Class Allocator (A : Type) : Type := {
  A_default : A;
  propagate_on_container_copy_assignment : bool;
  propagate_on_container_move_assignment : bool;
  propagate_on_container_swap : bool
}.

(** [operator==] of the element type, used by the relational operators. *)
Class EqualityComparable (T : Type) : Type := {
  eq_op : T -> T -> bool
}.

(** [operator<] of the element type, used by the order operators. *)
Class LessThanComparable (T : Type) : Type := {
  lt_op : T -> T -> bool
}.

(** [std::swap(a, b)] on two objects. *)
Definition std_swap {X : Type} (a b : X) : X * X := (b, a).

(** ** Algorithms of the C++ standard library used by the set *)

Section Algorithms.
Variable T : Type.

(** The loop shared by [std::lower_bound] and [std::upper_bound]:
<<
    len = distance(first, last);
    while (len > 0) {
      half = len >> 1;  middle = first + half;
      if (go_right(middle)) { first = middle + 1; len = len - half - 1; }
      else len = half;
    }
    return first;
>>
    [len] decreases at every turn, so [len] turns of fuel are enough. *)
Fixpoint bisect (fuel : nat) (go_right : T -> bool) (l : list T)
         (first len : nat) : nat :=
  match fuel with
  | 0 => first
  | S fuel' =>
      if len =? 0 then first
      else
        let half := len / 2 in
        let middle := first + half in
        match nth_error l middle with
        | Some m =>
            if go_right m
            then bisect fuel' go_right l (middle + 1) (len - half - 1)
            else bisect fuel' go_right l first half
        | None => first
        end
  end.

(** [std::lower_bound(first, last, value, comp)]: goes right when
    [comp(m, value)] for the middle element [m]. *)
Definition std_lower_bound (l : list T) (first last : nat) (value : T)
           (comp : T -> T -> bool) : nat :=
  bisect (last - first) (fun m => comp m value) l first (last - first).

(** [std::upper_bound(first, last, value, comp)]: goes left when
    [comp(value, m)] for the middle element [m]. *)
Definition std_upper_bound (l : list T) (first last : nat) (value : T)
           (comp : T -> T -> bool) : nat :=
  bisect (last - first) (fun m => negb (comp value m)) l first (last - first).

(** [std::binary_search(first, last, value, comp)]:
    [i = lower_bound(...)], then [i != last] and not [comp(value, x)] for
    the element [x] at [i]. *)
Definition std_binary_search (l : list T) (first last : nat) (value : T)
           (comp : T -> T -> bool) : bool :=
  let i := std_lower_bound l first last value comp in
  negb (i =? last) &&
  match nth_error l i with
  | Some x => negb (comp value x)
  | None => false
  end.

(** The positions the specification describes, by a scan from the left:
    the first position whose element is not less than [key], and the first
    position whose element is greater than [key]. *)
Fixpoint first_not_less (comp : T -> T -> bool) (l : list T) (key : T) : nat :=
  match l with
  | [] => 0
  | x :: l' => if comp x key then S (first_not_less comp l' key) else 0
  end.

Fixpoint first_greater (comp : T -> T -> bool) (l : list T) (key : T) : nat :=
  match l with
  | [] => 0
  | x :: l' => if comp key x then 0 else S (first_greater comp l' key)
  end.

(** [std::lexicographical_compare(first1, last1, first2, last2)]: the two
    ranges are walked together; at the first position where one element is
    less than the other the answer is whether the left one is; if one range
    ends first, the answer is whether it is the left one and the right one
    goes on. *)
Fixpoint std_lexicographical_compare (ltb : T -> T -> bool)
         (l1 l2 : list T) : bool :=
  match l1, l2 with
  | x :: l1', y :: l2' =>
      if ltb x y then true
      else if ltb y x then false
      else std_lexicographical_compare ltb l1' l2'
  | [], _ :: _ => true
  | _, [] => false
  end.

(** [k] is the partition point of [l] for [p]: [p] holds of the elements
    before position [k] and of no element from [k] on. *)
Definition partitioned_at (p : T -> bool) (l : list T) (k : nat) : Prop :=
  forall i x, nth_error l i = Some x -> p x = (i <? k).

(** Modelled from the spec: [absl::equal(first1, last1, first2, last2)] of
    absl/algorithm/algorithm.h, which is not part of the sources at hand.
    The two ranges are equal when they have the same size and are
    element-wise equal in iteration order. *)
Fixpoint absl_equal (eqb : T -> T -> bool) (l1 l2 : list T) : bool :=
  match l1, l2 with
  | [], [] => true
  | x :: l1', y :: l2' => eqb x y && absl_equal eqb l1' l2'
  | _, _ => false
  end.
End Algorithms.

(** ** std::vector<T, A>, as far as the set uses it *)

Section Vector.
Context {T A : Type} {alloc_traits : Allocator A}.

Record vector : Type := { data : list T; get_allocator : A }.

(** [vector(alloc)] *)
Definition vector_new (alloc : A) : vector :=
  {| data := []; get_allocator := alloc |}.

(** [vector(const vector& other)]; the allocator is
    [select_on_container_copy_construction], a copy for the allocators used
    here. *)
Definition vector_copy (other : vector) : vector := other.

(** [vector(const vector& other, alloc)] *)
Definition vector_copy_alloc (other : vector) (alloc : A) : vector :=
  {| data := data other; get_allocator := alloc |}.

(** [vector(vector&& other, alloc)]: the elements go to the new vector and
    the source is left empty, keeping its allocator.  The C++ standard leaves
    the source valid but unspecified; that it is empty is what the set's
    tests expect and its specification requires of the buffer. *)
Definition vector_move_alloc (other : vector) (alloc : A) : vector * vector :=
  ({| data := data other; get_allocator := alloc |},
   {| data := []; get_allocator := get_allocator other |}).

(** [vector& operator=(const vector& other)] *)
Definition vector_copy_assign (this other : vector) : vector :=
  {| data := data other;
     get_allocator := if propagate_on_container_copy_assignment
                      then get_allocator other else get_allocator this |}.

(** [vector& operator=(vector&& other)]: the source is left empty. *)
Definition vector_move_assign (this other : vector) : vector * vector :=
  ({| data := data other;
      get_allocator := if propagate_on_container_move_assignment
                       then get_allocator other else get_allocator this |},
   {| data := []; get_allocator := get_allocator other |}).

(** [insert(pos, value)]: [value] ends up at index [pos]. *)
Definition vector_insert (v : vector) (pos : nat) (value : T) : vector :=
  {| data := firstn pos (data v) ++ value :: skipn pos (data v);
     get_allocator := get_allocator v |}.

(** [erase(first, last)] on a valid range. *)
Definition vector_erase_range (v : vector) (first last : nat) : vector :=
  {| data := firstn first (data v) ++ skipn last (data v);
     get_allocator := get_allocator v |}.

(** [erase(pos)] on a dereferenceable position. *)
Definition vector_erase (v : vector) (pos : nat) : vector :=
  vector_erase_range v pos (S pos).

(** [clear()] *)
Definition vector_clear (v : vector) : vector :=
  {| data := []; get_allocator := get_allocator v |}.
End Vector.

Arguments vector : clear implicits.

(** ** The class template DenseSet<T, C, A> *)

Section DenseSet.
Context {T C A : Type}.
Context {compare : Compare T C} {alloc_traits : Allocator A}.
Context {equality : EqualityComparable T}.
Context {ordering : LessThanComparable T}.

(** [class DenseSet : private std::vector<T, A>] with the data member
    [C comp_{C()}]. *)
Record DenseSet : Type := { Base : vector T A; comp_ : C }.

Definition iterator : Type := nat.

Definition elements (s : DenseSet) : list T := data (Base s).

(** *** Construction *)

(** [DenseSet() = default] *)
Definition DenseSet_default : DenseSet :=
  {| Base := vector_new A_default; comp_ := C_default |}.

(** [explicit DenseSet(const allocator_type& alloc)] *)
Definition DenseSet_alloc (alloc : A) : DenseSet :=
  {| Base := vector_new alloc; comp_ := C_default |}.

(** [explicit DenseSet(const C& comp, const allocator_type& alloc)] *)
Definition DenseSet_comp (comp : C) (alloc : A) : DenseSet :=
  {| Base := vector_new alloc; comp_ := comp |}.

(** [DenseSet(const DenseSet& other) = default] *)
Definition DenseSet_copy (other : DenseSet) : DenseSet :=
  {| Base := vector_copy (Base other); comp_ := comp_ other |}.

(** [DenseSet(const DenseSet& other, const allocator_type& alloc)] *)
Definition DenseSet_copy_alloc (other : DenseSet) (alloc : A) : DenseSet :=
  {| Base := vector_copy_alloc (Base other) alloc; comp_ := comp_ other |}.

(** [DenseSet(DenseSet&& other, const allocator_type& alloc)]: the base is
    move-constructed with [alloc], [comp_] gets its default member
    initializer [C()], and the body runs [std::swap(comp_, other.comp_)]. *)
Definition DenseSet_move_alloc (other : DenseSet) (alloc : A)
  : DenseSet * DenseSet :=
  let '(base, other_base) := vector_move_alloc (Base other) alloc in
  let '(c, other_c) := std_swap C_default (comp_ other) in
  ({| Base := base; comp_ := c |}, {| Base := other_base; comp_ := other_c |}).

(** [DenseSet(DenseSet&& other)]: delegates to the constructor above with
    [allocator_type()], then its own body runs
    [std::swap(comp_, other.comp_)] once more. *)
Definition DenseSet_move (other : DenseSet) : DenseSet * DenseSet :=
  let '(this, other) := DenseSet_move_alloc other A_default in
  let '(c, other_c) := std_swap (comp_ this) (comp_ other) in
  ({| Base := Base this; comp_ := c |},
   {| Base := Base other; comp_ := other_c |}).

(** [DenseSet& operator=(const DenseSet& other) = default] *)
Definition copy_assign (this other : DenseSet) : DenseSet :=
  {| Base := vector_copy_assign (Base this) (Base other);
     comp_ := comp_ other |}.

(** [DenseSet& operator=(DenseSet&& other) = default]: member-wise move
    assignment of the base and of [comp_]. *)
Definition move_assign (this other : DenseSet) : DenseSet * DenseSet :=
  let '(base, other_base) := vector_move_assign (Base this) (Base other) in
  ({| Base := base; comp_ := comp_ other |},
   {| Base := other_base; comp_ := C_moved_from (comp_ other) |}).

(** *** Inspection *)

Definition key_comp (s : DenseSet) : C := comp_ s.
Definition value_comp (s : DenseSet) : C := comp_ s.
Definition size (s : DenseSet) : nat := length (elements s).
Definition empty (s : DenseSet) : bool := size s =? 0.
Definition begin (s : DenseSet) : iterator := 0.
Definition end_ (s : DenseSet) : iterator := size s.
Definition deref (s : DenseSet) (pos : iterator) : option T :=
  nth_error (elements s) pos.
(** [Base::back()] *)
Definition back (s : DenseSet) : option T := deref s (size s - 1).

(** [clear()] *)
Definition clear (s : DenseSet) : DenseSet :=
  {| Base := vector_clear (Base s); comp_ := comp_ s |}.

(** *** Lookup *)

Definition lower_bound (s : DenseSet) (key : T) : iterator :=
  std_lower_bound (elements s) (begin s) (end_ s) key (call (comp_ s)).

Definition upper_bound (s : DenseSet) (key : T) : iterator :=
  std_upper_bound (elements s) (begin s) (end_ s) key (call (comp_ s)).

Definition equal_range (s : DenseSet) (key : T) : iterator * iterator :=
  (lower_bound s key, upper_bound s key).

Definition contains (s : DenseSet) (key : T) : bool :=
  std_binary_search (elements s) (begin s) (end_ s) key (call (comp_ s)).

Definition count (s : DenseSet) (key : T) : nat :=
  if contains s key then 1 else 0.

(** The test [pos == end() || comp_(key, element at pos)] that find, insert
    and erase share. *)
Definition end_or_greater (s : DenseSet) (key : T) (pos : iterator) : bool :=
  (pos =? end_ s) ||
  match deref s pos with
  | Some p => call (comp_ s) key p
  | None => false
  end.

Definition find (s : DenseSet) (key : T) : iterator :=
  let pos := lower_bound s key in
  if end_or_greater s key pos then end_ s else pos.

(** *** Mutation *)

(** [Base::insert(pos, value)] and [Base::erase] on the set's own base. *)
Definition Base_insert (s : DenseSet) (pos : iterator) (value : T) : DenseSet :=
  {| Base := vector_insert (Base s) pos value; comp_ := comp_ s |}.

Definition Base_erase (s : DenseSet) (pos : iterator) : DenseSet :=
  {| Base := vector_erase (Base s) pos; comp_ := comp_ s |}.

Definition Base_erase_range (s : DenseSet) (first last : iterator) : DenseSet :=
  {| Base := vector_erase_range (Base s) first last; comp_ := comp_ s |}.

(** [std::pair<iterator,bool> insert(const value_type& value)]; the overload
    taking [value_type&&] has the same body. *)
Definition insert (s : DenseSet) (value : T) : DenseSet * (iterator * bool) :=
  let pos := lower_bound s value in
  if end_or_greater s value pos
  then (Base_insert s pos value, (pos, true))
  else (s, (pos, false)).

(** [emplace(args...)]: [insert(value_type{args...})]. *)
Definition emplace (s : DenseSet) (value : T) : DenseSet * (iterator * bool) :=
  insert s value.

(** [iterator insert(const_iterator pos, const value_type& value)]; the
    overload taking [value_type&&] has the same body. *)
Definition insert_hint (s : DenseSet) (pos : iterator) (value : T)
  : option (DenseSet * iterator) :=
  if empty s then Some (Base_insert s (begin s) value, begin s)
  else if pos =? end_ s then
    match back s with
    | Some last_elem =>
        if call (comp_ s) last_elem value
        then Some (Base_insert s (end_ s) value, end_ s)
        else let '(s', (it, _)) := insert s value in Some (s', it)
    | None => None
    end
  else
    match deref s pos with
    | Some p =>
        let pos' :=
          if call (comp_ s) value p
          then std_lower_bound (elements s) (begin s) pos value (call (comp_ s))
          else std_lower_bound (elements s) pos (end_ s) value (call (comp_ s))
        in
        if end_or_greater s value pos'
        then Some (Base_insert s pos' value, pos')
        else Some (s, pos')
    | None => None
    end.

(** [void insert(InputIt first, InputIt last)], the range being given as the
    list of the values it yields; [insert(std::initializer_list)] forwards
    to it. *)
Definition insert_range (s : DenseSet) (values : list T) : DenseSet :=
  fold_left (fun s' value => fst (insert s' value)) values s.

(** [iterator erase(const_iterator pos)] *)
Definition erase (s : DenseSet) (pos : iterator) : option (DenseSet * iterator) :=
  if pos <? size s then Some (Base_erase s pos, pos) else None.

(** [iterator erase(const_iterator first, const_iterator last)] *)
Definition erase_range (s : DenseSet) (first last : iterator)
  : option (DenseSet * iterator) :=
  if (first <=? last) && (last <=? size s)
  then Some (Base_erase_range s first last, first)
  else None.

(** [size_type erase(const key_type& key)] *)
Definition erase_key (s : DenseSet) (key : T) : DenseSet * nat :=
  let pos := lower_bound s key in
  if end_or_greater s key pos then (s, 0)
  else (Base_erase s pos, 1).

(** The constructors taking a range or an initializer list:
    [Base(alloc), comp_{comp}] followed by [insert(first, last)]. *)
Definition DenseSet_range (values : list T) (comp : C) (alloc : A) : DenseSet :=
  insert_range (DenseSet_comp comp alloc) values.

Definition DenseSet_range_alloc (values : list T) (alloc : A) : DenseSet :=
  DenseSet_range values C_default alloc.

(** *** Swap and comparison *)

(** The member [swap(DenseSet& other)] and the friend [swap(lhs, rhs)] both
    call [Base::swap] with two arguments, where [std::vector] has only the
    member [swap] of one argument: neither body compiles once it is
    instantiated, and the template parameters of the friend, none of which
    occurs in its parameter types, cannot be deduced.  Neither is a function
    that runs, so neither is embedded.  What an unqualified call
    [swap(a, b)] on two sets runs is the generic [std::swap],
    [DenseSet tmp(std::move(a)); a = std::move(b); b = std::move(tmp);],
    through the move constructor and the move assignment of the set. *)
Definition std_swap_DenseSet (a b : DenseSet) : DenseSet * DenseSet :=
  let '(tmp, a) := DenseSet_move a in
  let '(a, b) := move_assign a b in
  let '(b, tmp) := move_assign b tmp in
  (a, b).

(** [operator==] and [operator!=] *)
Definition op_eq (lhs rhs : DenseSet) : bool :=
  absl_equal eq_op (elements lhs) (elements rhs).

Definition op_ne (lhs rhs : DenseSet) : bool := negb (op_eq lhs rhs).

(** [operator<], [operator>], [operator<=] and [operator>=] *)
Definition op_lt (lhs rhs : DenseSet) : bool :=
  std_lexicographical_compare lt_op (elements lhs) (elements rhs).

Definition op_gt (lhs rhs : DenseSet) : bool := op_lt rhs lhs.

Definition op_le (lhs rhs : DenseSet) : bool := negb (op_lt rhs lhs).

Definition op_ge (lhs rhs : DenseSet) : bool := negb (op_lt lhs rhs).

(** *** Sequences of mutations *)

Inductive mutation : Type :=
| Insert (value : T)
| InsertHint (pos : iterator) (value : T)
| InsertRange (values : list T)
| Emplace (value : T)
| Erase (pos : iterator)
| EraseRange (first last : iterator)
| EraseKey (key : T).

Definition apply (s : DenseSet) (m : mutation) : option DenseSet :=
  match m with
  | Insert value => Some (fst (insert s value))
  | InsertHint pos value => option_map fst (insert_hint s pos value)
  | InsertRange values => Some (insert_range s values)
  | Emplace value => Some (fst (emplace s value))
  | Erase pos => option_map fst (erase s pos)
  | EraseRange first last => option_map fst (erase_range s first last)
  | EraseKey key => Some (fst (erase_key s key))
  end.

(** The states after each operation of a sequence. *)
Fixpoint run (s : DenseSet) (ms : list mutation) : option (list DenseSet) :=
  match ms with
  | [] => Some []
  | m :: ms' =>
      match apply s m with
      | Some s' => option_map (cons s') (run s' ms')
      | None => None
      end
  end.

(** The iterator arguments of a mutation are valid for [s]. *)
Definition valid_for (s : DenseSet) (m : mutation) : bool :=
  match m with
  | InsertHint pos _ => pos <=? size s
  | Erase pos => pos <? size s
  | EraseRange first last => (first <=? last) && (last <=? size s)
  | _ => true
  end.

(** The iterator arguments are valid at every step of a sequence. *)
Fixpoint valid_run (s : DenseSet) (ms : list mutation) : bool :=
  match ms with
  | [] => true
  | m :: ms' =>
      valid_for s m &&
      match apply s m with
      | Some s' => valid_run s' ms'
      | None => true
      end
  end.

(** *** The invariant and the requirement on the comparator *)

(** Two values are equivalent under a comparator when neither is less than
    the other. *)
Definition equivalent (c : C) (x y : T) : Prop :=
  call c x y = false /\ call c y x = false.

Record strict_weak_ordering (lt : T -> T -> bool) : Prop := {
  swo_irreflexive : forall x, lt x x = false;
  swo_transitive : forall x y z, lt x y = true -> lt y z = true -> lt x z = true;
  swo_incomparable : forall x y z,
    lt x y = false -> lt y x = false -> lt y z = false -> lt z y = false ->
    lt x z = false /\ lt z x = false
}.

(** I1: every element is less than its successor. *)
Definition I1 (s : DenseSet) : Prop :=
  Sorted (fun x y => call (comp_ s) x y = true) (elements s).

(** The same, as a check that computes. *)
Fixpoint sortedb (lt : T -> T -> bool) (l : list T) : bool :=
  match l with
  | x :: ((y :: _) as l') => lt x y && sortedb lt l'
  | _ => true
  end.

Definition I1b (s : DenseSet) : bool := sortedb (call (comp_ s)) (elements s).

(** No two elements at different positions are equivalent. *)
Definition no_duplicates (s : DenseSet) : Prop :=
  forall i j x y, i <> j -> deref s i = Some x -> deref s j = Some y ->
                  ~ equivalent (comp_ s) x y.

(** An element equivalent to [key] is present. *)
Definition present (s : DenseSet) (key : T) : Prop :=
  exists e, In e (elements s) /\ equivalent (comp_ s) e key.
End DenseSet.

Arguments DenseSet : clear implicits.

(** ** Instantiations *)

(** The helper types of the test-suite: [test_compare<std::less<int>>] and
    [test_compare<std::greater<int>>] carry an [int data_] that only their
    [operator==] looks at, [test_alloc<int>] carries an [int64_t data_] and
    inherits the traits of [std::allocator]. *)
Record test_compare_less : Type := Cmp { cmp_data_ : Z }.
Record test_compare_greater : Type := CmpG { cmpg_data_ : Z }.
Record test_alloc : Type := Alloc { alloc_data_ : Z }.

#[export] Instance int_equality : EqualityComparable Z := {| eq_op := Z.eqb |}.

#[export] Instance int_ordering : LessThanComparable Z := {| lt_op := Z.ltb |}.

#[export] Instance Cmp_compare : Compare Z test_compare_less :=
  {| call := fun _ x y => (x <? y)%Z;
     C_default := Cmp 0;
     C_moved_from := fun c => c |}.

#[export] Instance CmpG_compare : Compare Z test_compare_greater :=
  {| call := fun _ x y => (y <? x)%Z;
     C_default := CmpG 0;
     C_moved_from := fun c => c |}.

#[export] Instance test_alloc_traits : Allocator test_alloc :=
  {| A_default := Alloc 0;
     propagate_on_container_copy_assignment := false;
     propagate_on_container_move_assignment := true;
     propagate_on_container_swap := false |}.

(** [using denseSet = absl::DenseSet<int, test_compare<std::less<int>>,
    test_alloc<int>>] *)
Definition denseSet : Type := DenseSet Z test_compare_less test_alloc.

(** The set the tests write [denseSet mySet({...}, Cmp(c), Alloc(a))]. *)
Definition denseSet_init (init : list Z) (c a : Z) : denseSet :=
  DenseSet_range init (Cmp c) (Alloc a).

(** Two further comparator types a client may instantiate the template with.
    [direction] chooses the order when the object is built, as a function
    pointer or a [std::function] does; [by_magnitude] orders integers by
    their absolute value, so that [n] and [-n] are equivalent. *)
Inductive direction : Type := Ascending | Descending.
Inductive by_magnitude : Type := ByMagnitude.

#[export] Instance direction_compare : Compare Z direction :=
  {| call := fun d x y =>
       match d with Ascending => (x <? y)%Z | Descending => (y <? x)%Z end;
     C_default := Ascending;
     C_moved_from := fun d => d |}.

#[export] Instance by_magnitude_compare : Compare Z by_magnitude :=
  {| call := fun _ x y => (Z.abs x <? Z.abs y)%Z;
     C_default := ByMagnitude;
     C_moved_from := fun c => c |}.

Definition directedSet : Type := DenseSet Z direction test_alloc.
Definition magnitudeSet : Type := DenseSet Z by_magnitude test_alloc.

(** * Proofs *)

(** ** Binary search finds the partition point *)

Section AlgorithmFacts.
Variable T : Type.
Implicit Types (l : list T) (p : T -> bool) (lt : T -> T -> bool).

Lemma bisect_partition p l k :
  partitioned_at p l k ->
  forall fuel first len,
    len <= fuel -> first <= k <= first + len -> first + len <= length l ->
    bisect fuel p l first len = k.
Proof.
  intros Hpart fuel.
  induction fuel as [|fuel IH]; intros first len Hfuel Hk Hlen; cbn [bisect].
  - lia.
  - destruct (Nat.eqb_spec len 0) as [->|Hpos]; [lia|].
    assert (Hhalf : len / 2 < len) by (apply Nat.div_lt; lia).
    destruct (nth_error l (first + len / 2)) as [m|] eqn:Hm.
    + rewrite (Hpart _ _ Hm).
      destruct (Nat.ltb_spec (first + len / 2) k); apply IH; lia.
    + apply nth_error_None in Hm. lia.
Qed.

Lemma partitioned_at_unique p l k k' :
  k <= length l -> k' <= length l ->
  partitioned_at p l k -> partitioned_at p l k' -> k = k'.
Proof.
  intros Hk Hk' H H'.
  destruct (Nat.lt_trichotomy k k') as [Hlt|[->|Hlt]]; [exfalso| reflexivity |exfalso].
  - destruct (nth_error l k) as [x|] eqn:Hx.
    + pose proof (H _ _ Hx) as E. rewrite (H' _ _ Hx) in E.
      rewrite Nat.ltb_irrefl in E.
      apply Nat.ltb_lt in Hlt. congruence.
    + apply nth_error_None in Hx. lia.
  - destruct (nth_error l k') as [x|] eqn:Hx.
    + pose proof (H' _ _ Hx) as E. rewrite (H _ _ Hx) in E.
      rewrite Nat.ltb_irrefl in E.
      apply Nat.ltb_lt in Hlt. congruence.
    + apply nth_error_None in Hx. lia.
Qed.

Lemma std_lower_bound_partition lt l key k first last :
  partitioned_at (fun x => lt x key) l k ->
  first <= k <= last -> last <= length l ->
  std_lower_bound l first last key lt = k.
Proof.
  intros Hpart Hk Hlast. unfold std_lower_bound.
  apply bisect_partition with (k := k); auto; lia.
Qed.

Lemma std_upper_bound_partition lt l key k first last :
  partitioned_at (fun x => negb (lt key x)) l k ->
  first <= k <= last -> last <= length l ->
  std_upper_bound l first last key lt = k.
Proof.
  intros Hpart Hk Hlast. unfold std_upper_bound.
  apply bisect_partition with (k := k); auto; lia.
Qed.

Lemma first_not_less_le lt l key : first_not_less lt l key <= length l.
Proof. induction l as [|x l IH]; simpl; [|destruct (lt x key)]; simpl; lia. Qed.

Lemma first_greater_le lt l key : first_greater lt l key <= length l.
Proof. induction l as [|x l IH]; simpl; [|destruct (lt key x)]; simpl; lia. Qed.

Section Ordered.
Variable lt : T -> T -> bool.
Hypothesis lt_trans :
  forall x y z, lt x y = true -> lt y z = true -> lt x z = true.

Let R (x y : T) : Prop := lt x y = true.

(** In a sorted sequence the elements less than [key] come first. *)
Lemma sorted_partitioned_lower l key :
  StronglySorted R l ->
  partitioned_at (fun x => lt x key) l (first_not_less lt l key).
Proof.
  induction 1 as [|x l Hs IH Hx]; intros i y Hy.
  - destruct i; discriminate.
  - simpl. destruct (lt x key) eqn:Hxk.
    + destruct i as [|i]; simpl in Hy.
      * injection Hy as <-. exact Hxk.
      * apply (IH _ _ Hy).
    + destruct i as [|i]; simpl in Hy.
      * injection Hy as <-. exact Hxk.
      * rewrite Forall_forall in Hx.
        apply nth_error_In in Hy. specialize (Hx _ Hy).
        destruct (lt y key) eqn:Hyk; [|reflexivity].
        rewrite (lt_trans Hx Hyk) in Hxk. discriminate.
Qed.

(** In a sorted sequence the elements greater than [key] come last. *)
Lemma sorted_partitioned_upper l key :
  StronglySorted R l ->
  partitioned_at (fun x => negb (lt key x)) l (first_greater lt l key).
Proof.
  induction 1 as [|x l Hs IH Hx]; intros i y Hy.
  - destruct i; discriminate.
  - simpl. destruct (lt key x) eqn:Hkx.
    + destruct i as [|i]; simpl in Hy.
      * injection Hy as <-. rewrite Hkx. reflexivity.
      * rewrite Forall_forall in Hx.
        apply nth_error_In in Hy. specialize (Hx _ Hy).
        rewrite (lt_trans Hkx Hx). reflexivity.
    + destruct i as [|i]; simpl in Hy.
      * injection Hy as <-. rewrite Hkx. reflexivity.
      * apply (IH _ _ Hy).
Qed.
End Ordered.
End AlgorithmFacts.

(** ** Sorted sequences under a strict weak ordering *)

Section SortedFacts.
Variable T : Type.
Variable lt : T -> T -> bool.
Implicit Types (l : list T) (x y z key value : T).

Let R (x y : T) : Prop := lt x y = true.

Lemma In_firstn l k x : In x (firstn k l) -> In x l.
Proof.
  intros Hx. rewrite <- (firstn_skipn k l). apply in_or_app. left. exact Hx.
Qed.

Lemma In_skipn l k x : In x (skipn k l) -> In x l.
Proof.
  intros Hx. rewrite <- (firstn_skipn k l). apply in_or_app. right. exact Hx.
Qed.

Lemma StronglySorted_app l1 l2 :
  StronglySorted R (l1 ++ l2) <->
  StronglySorted R l1 /\ StronglySorted R l2 /\
  (forall x y, In x l1 -> In y l2 -> R x y).
Proof.
  induction l1 as [|a l1 IH]; simpl.
  - split.
    + intros H. repeat split; [constructor | exact H | contradiction].
    + intros (_ & H & _). exact H.
  - split.
    + intros H. apply StronglySorted_inv in H as [Hs Ha].
      apply IH in Hs as (H1 & H2 & H12).
      rewrite Forall_app in Ha. destruct Ha as [Ha1 Ha2].
      repeat split; [constructor; assumption | assumption |].
      intros x y [<-|Hx] Hy; [|auto].
      rewrite Forall_forall in Ha2. auto.
    + intros (H1 & H2 & H12).
      apply StronglySorted_inv in H1 as [Hs Ha].
      constructor.
      * apply IH. repeat split; auto.
      * rewrite Forall_app. split; [assumption|].
        rewrite Forall_forall. intros y Hy. apply H12; auto.
Qed.

(** Taking a range out of a sorted sequence leaves it sorted. *)
Lemma StronglySorted_erase_range l first last :
  first <= last -> StronglySorted R l ->
  StronglySorted R (firstn first l ++ skipn last l).
Proof.
  intros Hle Hs.
  rewrite <- (firstn_skipn first l) in Hs.
  apply StronglySorted_app in Hs as (H1 & H2 & H12).
  replace (skipn last l) with (skipn (last - first) (skipn first l))
    by (rewrite skipn_skipn; f_equal; lia).
  rewrite <- (firstn_skipn (last - first) (skipn first l)) in H2, H12.
  apply StronglySorted_app in H2 as (_ & H3 & _).
  apply StronglySorted_app. repeat split; auto.
  intros x y Hx Hy. apply H12; [assumption|].
  apply in_or_app. right. exact Hy.
Qed.

Lemma StronglySorted_nth l i j x y :
  StronglySorted R l -> i < j ->
  nth_error l i = Some x -> nth_error l j = Some y -> lt x y = true.
Proof.
  intros Hs. revert i j.
  induction Hs as [|a l Hs IH Ha]; intros i j Hij Hx Hy.
  - destruct i; discriminate.
  - destruct j as [|j]; [lia|]. simpl in Hy.
    destruct i as [|i]; simpl in Hx.
    + injection Hx as <-. rewrite Forall_forall in Ha.
      apply Ha. eapply nth_error_In; eassumption.
    + apply (IH i j); [lia | assumption | assumption].
Qed.

Lemma sortedb_Sorted l : sortedb lt l = true <-> Sorted R l.
Proof.
  induction l as [|a [|b l] IH].
  - split; [constructor | reflexivity].
  - split; [repeat constructor | reflexivity].
  - change (sortedb lt (a :: b :: l)) with (lt a b && sortedb lt (b :: l)).
    rewrite andb_true_iff, IH. split.
    + intros [Hab Hs]. constructor; [assumption | constructor; assumption].
    + intros H. apply Sorted_inv in H as [Hs Hab].
      apply HdRel_inv in Hab. split; assumption.
Qed.

Hypothesis order : strict_weak_ordering lt.

Lemma lt_asymmetric x y : lt x y = true -> lt y x = false.
Proof.
  intros Hxy. destruct (lt y x) eqn:Hyx; [|reflexivity].
  rewrite <- (swo_irreflexive order x).
  symmetry. exact (swo_transitive order _ _ _ Hxy Hyx).
Qed.

(** If [x < y] then every [z] is above [x] or below [y]. *)
Lemma lt_negatively_transitive x y z :
  lt x y = true -> lt z y = false -> lt x z = true.
Proof.
  intros Hxy Hzy.
  destruct (lt x z) eqn:Hxz; [reflexivity|exfalso].
  destruct (lt z x) eqn:Hzx.
  - rewrite (swo_transitive order _ _ _ Hzx Hxy) in Hzy. discriminate.
  - destruct (lt y z) eqn:Hyz.
    + rewrite (swo_transitive order _ _ _ Hxy Hyz) in Hxz. discriminate.
    + destruct (swo_incomparable order x z y Hxz Hzx Hzy Hyz) as [E _].
      congruence.
Qed.

Lemma Sorted_strongly l : Sorted R l -> StronglySorted R l.
Proof.
  apply Sorted_StronglySorted.
  intros x y z. apply (swo_transitive order).
Qed.

(** Splicing [value] in at its lower bound keeps the sequence sorted when
    that position is the end or holds a greater element. *)
Lemma StronglySorted_insert l value :
  StronglySorted R l ->
  let k := first_not_less lt l value in
  (k = length l \/ exists p, nth_error l k = Some p /\ lt value p = true) ->
  StronglySorted R (firstn k l ++ value :: skipn k l).
Proof.
  induction 1 as [|a l Hs IH Ha]; simpl.
  - intros _. repeat constructor.
  - destruct (lt a value) eqn:Hav; simpl.
    + intros Hk. constructor.
      * apply IH. destruct Hk as [Hk|Hk]; [left; lia | right; exact Hk].
      * rewrite Forall_forall in Ha |- *. intros y Hy.
        apply in_app_or in Hy as [Hy|[<-|Hy]].
        -- apply Ha. eapply In_firstn. eassumption.
        -- exact Hav.
        -- apply Ha. eapply In_skipn. eassumption.
    + intros [Hk|(p & Hp & Hvp)]; [discriminate|].
      injection Hp as <-. constructor; [constructor; assumption|].
      constructor; [exact Hvp|].
      rewrite Forall_forall in Ha |- *. intros y Hy.
      exact (swo_transitive order _ _ _ Hvp (Ha _ Hy)).
Qed.

(** The spliced value sits at its own lower bound. *)
Lemma first_not_less_insert l value :
  let k := first_not_less lt l value in
  first_not_less lt (firstn k l ++ value :: skipn k l) value = k.
Proof.
  induction l as [|a l IH]; simpl.
  - rewrite (swo_irreflexive order). reflexivity.
  - destruct (lt a value) eqn:Hav; simpl.
    + rewrite Hav. f_equal. exact IH.
    + rewrite (swo_irreflexive order). reflexivity.
Qed.

(** The lower and the upper bound of [key] enclose at most one position. *)
Lemma first_greater_bounds l key :
  StronglySorted R l ->
  first_not_less lt l key <= first_greater lt l key <= S (first_not_less lt l key).
Proof.
  induction 1 as [|a l Hs IH Ha]; simpl; [lia|].
  destruct (lt a key) eqn:Hak.
  - rewrite (lt_asymmetric Hak). lia.
  - destruct (lt key a) eqn:Hka; [lia|].
    enough (first_greater lt l key = 0) by lia.
    destruct l as [|b l]; [reflexivity|]. simpl.
    apply Forall_inv in Ha.
    destruct (lt key b) eqn:Hkb; [reflexivity|exfalso].
    rewrite (lt_negatively_transitive Ha Hkb) in Hak. discriminate.
Qed.

(** Two sorted sequences with the same members are the same sequence. *)
Lemma StronglySorted_unique l1 l2 :
  StronglySorted R l1 -> StronglySorted R l2 ->
  (forall x, In x l1 <-> In x l2) -> l1 = l2.
Proof.
  intros H1. revert l2.
  induction H1 as [|a l1 Hs1 IH Ha]; intros l2 H2 Hmem.
  - destruct l2 as [|b l2]; [reflexivity|].
    destruct (proj2 (Hmem b)). left. reflexivity.
  - destruct H2 as [|b l2 Hs2 Hb].
    + destruct (proj1 (Hmem a)). left. reflexivity.
    + rewrite Forall_forall in Ha, Hb.
      assert (a = b) as <-.
      { destruct (proj1 (Hmem a) (or_introl eq_refl)) as [E|Hin]; [auto|].
        destruct (proj2 (Hmem b) (or_introl eq_refl)) as [E|Hin']; [auto|].
        pose proof (lt_asymmetric (Ha _ Hin')) as E.
        rewrite (Hb _ Hin) in E. discriminate. }
      f_equal. apply IH; [assumption|].
      intros x. split; intros Hx.
      * destruct (proj1 (Hmem x) (or_intror Hx)) as [<-|Hin]; [|assumption].
        pose proof (Ha _ Hx) as E. unfold R in E.
        rewrite (swo_irreflexive order) in E. discriminate.
      * destruct (proj2 (Hmem x) (or_intror Hx)) as [<-|Hin]; [|assumption].
        pose proof (Hb _ Hx) as E. unfold R in E.
        rewrite (swo_irreflexive order) in E. discriminate.
Qed.
End SortedFacts.

(** ** Lookup *)

Section LookupFacts.
Context {T C A : Type} {compare : Compare T C} {alloc_traits : Allocator A}.
Implicit Types (s : DenseSet T C A) (key value : T) (pos : iterator).

Lemma I1_StronglySorted s :
  strict_weak_ordering (call (comp_ s)) -> I1 s ->
  StronglySorted (fun x y => call (comp_ s) x y = true) (elements s).
Proof. intros order Hs. apply Sorted_strongly; assumption. Qed.

(** On a set satisfying I1 the binary searches return the positions the
    left-to-right scans define. *)
Lemma lower_bound_scan s key :
  strict_weak_ordering (call (comp_ s)) -> I1 s ->
  lower_bound s key = first_not_less (call (comp_ s)) (elements s) key.
Proof.
  intros order Hs. unfold lower_bound, begin, end_, size.
  apply std_lower_bound_partition.
  - apply sorted_partitioned_lower.
    + apply (swo_transitive order).
    + apply I1_StronglySorted; assumption.
  - pose proof (first_not_less_le (call (comp_ s)) (elements s) key). lia.
  - lia.
Qed.

Lemma upper_bound_scan s key :
  strict_weak_ordering (call (comp_ s)) -> I1 s ->
  upper_bound s key = first_greater (call (comp_ s)) (elements s) key.
Proof.
  intros order Hs. unfold upper_bound, begin, end_, size.
  apply std_upper_bound_partition.
  - apply sorted_partitioned_upper.
    + apply (swo_transitive order).
    + apply I1_StronglySorted; assumption.
  - pose proof (first_greater_le (call (comp_ s)) (elements s) key). lia.
  - lia.
Qed.

(** [lower_bound(key)] is the first position whose element is not less than
    [key]; [upper_bound(key)] is the first whose element is greater. *)
Lemma lower_bound_partition s key :
  strict_weak_ordering (call (comp_ s)) -> I1 s ->
  lower_bound s key <= size s /\
  forall i x, deref s i = Some x ->
              call (comp_ s) x key = (i <? lower_bound s key).
Proof.
  intros order Hs. rewrite lower_bound_scan by assumption. split.
  - apply first_not_less_le.
  - apply sorted_partitioned_lower.
    + apply (swo_transitive order).
    + apply I1_StronglySorted; assumption.
Qed.

Lemma upper_bound_partition s key :
  strict_weak_ordering (call (comp_ s)) -> I1 s ->
  upper_bound s key <= size s /\
  forall i x, deref s i = Some x ->
              negb (call (comp_ s) key x) = (i <? upper_bound s key).
Proof.
  intros order Hs. rewrite upper_bound_scan by assumption. split.
  - apply first_greater_le.
  - apply sorted_partitioned_upper.
    + apply (swo_transitive order).
    + apply I1_StronglySorted; assumption.
Qed.

Lemma bounds_close s key :
  strict_weak_ordering (call (comp_ s)) -> I1 s ->
  lower_bound s key <= upper_bound s key <= S (lower_bound s key).
Proof.
  intros order Hs.
  rewrite lower_bound_scan, upper_bound_scan by assumption.
  apply first_greater_bounds; [assumption|].
  apply I1_StronglySorted; assumption.
Qed.

(** What the shared test says when it fails. *)
Lemma end_or_greater_false s key pos :
  pos <= size s ->
  end_or_greater s key pos = false <->
  exists p, deref s pos = Some p /\ call (comp_ s) key p = false.
Proof.
  intros Hpos. unfold end_or_greater, end_, deref, size in *. split.
  - intros H. apply orb_false_iff in H as [Hend H].
    apply Nat.eqb_neq in Hend.
    destruct (nth_error (elements s) pos) as [p|] eqn:Hp.
    + exists p. split; [reflexivity | assumption].
    + apply nth_error_None in Hp. lia.
  - intros (p & Hp & Hkp). rewrite Hp, Hkp, orb_false_r.
    apply Nat.eqb_neq. intros ->.
    assert (nth_error (elements s) (length (elements s)) = None)
      by (apply nth_error_None; lia).
    congruence.
Qed.

Lemma end_or_greater_true s key pos :
  pos <= size s ->
  end_or_greater s key pos = true <->
  pos = end_ s \/ exists p, deref s pos = Some p /\ call (comp_ s) key p = true.
Proof.
  intros Hpos. unfold end_or_greater, end_, deref. split.
  - intros H. apply orb_true_iff in H as [H|H].
    + left. apply Nat.eqb_eq. exact H.
    + right. destruct (nth_error (elements s) pos) as [p|]; [|discriminate].
      exists p. split; [reflexivity | assumption].
  - intros [->|(p & Hp & Hkp)].
    + rewrite Nat.eqb_refl. reflexivity.
    + rewrite Hp, Hkp. apply orb_true_r.
Qed.

(** An element equivalent to [key] can only sit at the lower bound. *)
Lemma equivalent_at_lower_bound s key i x :
  strict_weak_ordering (call (comp_ s)) -> I1 s ->
  deref s i = Some x -> equivalent (comp_ s) x key -> i = lower_bound s key.
Proof.
  intros order Hs Hx [Hxk Hkx].
  destruct (lower_bound_partition key order Hs) as [_ Hlow].
  destruct (upper_bound_partition key order Hs) as [_ Hup].
  pose proof (bounds_close key order Hs) as Hclose.
  specialize (Hlow _ _ Hx). specialize (Hup _ _ Hx).
  rewrite Hxk in Hlow. rewrite Hkx in Hup. simpl in Hup.
  symmetry in Hlow, Hup.
  apply Nat.ltb_ge in Hlow. apply Nat.ltb_lt in Hup. lia.
Qed.

(** The test at the lower bound fails exactly when an equivalent element
    is present, and then that element is the one at the lower bound. *)
Lemma lower_bound_hit s key :
  strict_weak_ordering (call (comp_ s)) -> I1 s ->
  end_or_greater s key (lower_bound s key) = false <->
  exists p, deref s (lower_bound s key) = Some p /\ equivalent (comp_ s) p key.
Proof.
  intros order Hs.
  destruct (lower_bound_partition key order Hs) as [Hle Hlow].
  rewrite end_or_greater_false by assumption.
  split; intros (p & Hp & H); exists p; (split; [assumption|]).
  - split; [|assumption].
    rewrite (Hlow _ _ Hp). apply Nat.ltb_irrefl.
  - apply H.
Qed.

Lemma lower_bound_present s key :
  strict_weak_ordering (call (comp_ s)) -> I1 s ->
  end_or_greater s key (lower_bound s key) = false <-> present s key.
Proof.
  intros order Hs. rewrite lower_bound_hit by assumption. split.
  - intros (p & Hp & Heq). exists p. split; [|assumption].
    eapply nth_error_In. exact Hp.
  - intros (e & Hin & Heq).
    apply In_nth_error in Hin as [i Hi].
    rewrite <- (@equivalent_at_lower_bound s key i e order Hs Hi Heq).
    exists e. split; assumption.
Qed.

(** [contains] runs the test of [find] at the same position. *)
Lemma contains_end_or_greater s key :
  lower_bound s key <= size s ->
  contains s key = negb (end_or_greater s key (lower_bound s key)).
Proof.
  unfold contains, std_binary_search, end_or_greater, deref.
  change (std_lower_bound (elements s) (begin s) (end_ s) key
                          (call (comp_ s))) with (lower_bound s key).
  generalize (lower_bound s key). intros pos Hle.
  destruct (Nat.eqb_spec pos (end_ s)) as [E|E]; simpl; [reflexivity|].
  destruct (nth_error (elements s) pos) as [p|] eqn:Hp; [reflexivity|].
  apply nth_error_None in Hp. unfold end_, size in *. lia.
Qed.

Lemma I1_no_duplicates s :
  strict_weak_ordering (call (comp_ s)) -> I1 s -> no_duplicates s.
Proof.
  intros order Hs i j x y Hij Hx Hy Heq.
  assert (equivalent (comp_ s) y y) as Hyy
      by (split; apply (swo_irreflexive order)).
  pose proof (@equivalent_at_lower_bound s y i x order Hs Hx Heq).
  pose proof (@equivalent_at_lower_bound s y j y order Hs Hy Hyy).
  congruence.
Qed.
End LookupFacts.

(** ** The lookup operations *)

Section LookupClaims.
Context {T C A : Type} {compare : Compare T C} {alloc_traits : Allocator A}.
Implicit Types (s : DenseSet T C A) (key value : T) (pos : iterator).

(** C6: on a set satisfying I1, [find(key)] returns [lower_bound(key)] when
    that position holds an element [p] with [comp_(key, p)] false, and that
    element is then equivalent to [key]; it returns [end()] when the
    position is the end or holds a greater element.  [contains(key)] holds
    exactly when [find(key)] is not [end()], and [count(key)] is 0 or 1,
    being 1 exactly when [contains(key)] holds. *)
Theorem find_contains_count s key :
  strict_weak_ordering (call (comp_ s)) -> I1 s ->
  let pos := lower_bound s key in
  (forall p, deref s pos = Some p -> call (comp_ s) key p = false ->
             find s key = pos /\ equivalent (comp_ s) p key) /\
  (deref s pos = None \/
   (exists p, deref s pos = Some p /\ call (comp_ s) key p = true) ->
   find s key = end_ s) /\
  (contains s key = true <-> find s key <> end_ s) /\
  (count s key = 0 \/ count s key = 1) /\
  (count s key = 1 <-> contains s key = true).
Proof.
  intros order Hs pos.
  destruct (lower_bound_partition key order Hs) as [Hle Hlow].
  fold pos in Hle, Hlow.
  repeat split.
  - unfold find. fold pos.
    replace (end_or_greater s key pos) with false; [reflexivity|].
    symmetry. apply end_or_greater_false; [assumption|]. eauto.
  - rewrite (Hlow _ _ H). apply Nat.ltb_irrefl.
  - assumption.
  - intros Hcase. unfold find. fold pos.
    replace (end_or_greater s key pos) with true; [reflexivity|].
    symmetry. apply end_or_greater_true; [assumption|].
    destruct Hcase as [Hnone|Hsome]; [left | right; exact Hsome].
    apply nth_error_None in Hnone. unfold end_, size in *. lia.
  - rewrite contains_end_or_greater by assumption. unfold find. fold pos.
    destruct (end_or_greater s key pos) eqn:E; [discriminate | intros _].
    apply end_or_greater_false in E as (p & Hp & _); [|assumption].
    intros Hend. rewrite Hend in Hp.
    assert (deref s (end_ s) = None) by (apply nth_error_None; reflexivity).
    congruence.
  - rewrite contains_end_or_greater by assumption. unfold find. fold pos.
    destruct (end_or_greater s key pos); [congruence | reflexivity].
  - unfold count. destruct (contains s key); [right | left]; reflexivity.
  - unfold count. destruct (contains s key); [reflexivity | discriminate].
  - unfold count. intros ->. reflexivity.
Qed.

(** The coherence of [find] and [lower_bound] in terms of membership. *)
Lemma find_present s key :
  strict_weak_ordering (call (comp_ s)) -> I1 s ->
  find s key <> end_ s <-> present s key.
Proof.
  intros order Hs. rewrite <- lower_bound_present by assumption.
  destruct (lower_bound_partition key order Hs) as [Hle _].
  unfold find. destruct (end_or_greater s key (lower_bound s key)) eqn:E.
  - split; [congruence | discriminate].
  - split; [reflexivity | intros _].
    apply end_or_greater_false in E as (p & Hp & _); [|assumption].
    intros Hend. rewrite Hend in Hp.
    assert (deref s (end_ s) = None) by (apply nth_error_None; reflexivity).
    congruence.
Qed.

(** C7: on a set satisfying I1, [equal_range(key)] is the pair of
    [lower_bound(key)] and [upper_bound(key)], the first positions whose
    element is not less than, respectively greater than, [key]; the range
    between them holds at most one element, and when no element equivalent
    to [key] is present the two positions coincide. *)
Theorem equal_range_bounds s key :
  strict_weak_ordering (call (comp_ s)) -> I1 s ->
  equal_range s key = (lower_bound s key, upper_bound s key) /\
  lower_bound s key = first_not_less (call (comp_ s)) (elements s) key /\
  upper_bound s key = first_greater (call (comp_ s)) (elements s) key /\
  lower_bound s key <= upper_bound s key <= size s /\
  upper_bound s key - lower_bound s key <= 1 /\
  (~ present s key ->
   fst (equal_range s key) = snd (equal_range s key) /\
   snd (equal_range s key) = lower_bound s key) /\
  (present s key -> upper_bound s key = S (lower_bound s key)).
Proof.
  intros order Hs.
  pose proof (bounds_close key order Hs) as Hclose.
  destruct (lower_bound_partition key order Hs) as [Hle Hlow].
  destruct (upper_bound_partition key order Hs) as [Hue Hup].
  assert (Hiff : present s key <-> upper_bound s key = S (lower_bound s key)).
  { rewrite <- lower_bound_present, lower_bound_hit by assumption. split.
    - intros (p & Hp & [Hpk Hkp]).
      specialize (Hup _ _ Hp). rewrite Hkp in Hup. simpl in Hup.
      symmetry in Hup. apply Nat.ltb_lt in Hup. lia.
    - intros E.
      destruct (deref s (lower_bound s key)) as [p|] eqn:Hp.
      + exists p. split; [reflexivity|]. split.
        * rewrite (Hlow _ _ Hp). apply Nat.ltb_irrefl.
        * specialize (Hup _ _ Hp). rewrite E in Hup.
          rewrite (proj2 (Nat.ltb_lt _ _) (Nat.lt_succ_diag_r _)) in Hup.
          destruct (call (comp_ s) key p); [discriminate | reflexivity].
      + apply nth_error_None in Hp. unfold size in *. lia. }
  repeat split.
  - apply lower_bound_scan; assumption.
  - apply upper_bound_scan; assumption.
  - lia.
  - assumption.
  - lia.
  - simpl. rewrite Hiff in H. lia.
  - simpl. rewrite Hiff in H. lia.
  - apply Hiff.
Qed.
End LookupClaims.

(** ** Single-element insertion and erasure *)

Section MutationFacts.
Context {T C A : Type} {compare : Compare T C} {alloc_traits : Allocator A}.
Implicit Types (s : DenseSet T C A) (key value : T) (pos : iterator).

Lemma I1_of_StronglySorted s :
  StronglySorted (fun x y => call (comp_ s) x y = true) (elements s) -> I1 s.
Proof. apply StronglySorted_Sorted. Qed.

Lemma insert_cases s value :
  (end_or_greater s value (lower_bound s value) = true /\
   insert s value
   = (Base_insert s (lower_bound s value) value, (lower_bound s value, true)))
  \/
  (end_or_greater s value (lower_bound s value) = false /\
   insert s value = (s, (lower_bound s value, false))).
Proof.
  unfold insert.
  destruct (end_or_greater s value (lower_bound s value)); auto.
Qed.

Lemma Base_insert_I1 s value :
  strict_weak_ordering (call (comp_ s)) -> I1 s ->
  end_or_greater s value (lower_bound s value) = true ->
  I1 (Base_insert s (lower_bound s value) value).
Proof.
  intros order Hs Htest.
  destruct (lower_bound_partition value order Hs) as [Hle _].
  apply end_or_greater_true in Htest; [|assumption].
  rewrite lower_bound_scan in * by assumption.
  apply I1_of_StronglySorted. simpl.
  apply StronglySorted_insert;
    [assumption | apply I1_StronglySorted; assumption | exact Htest].
Qed.

(** After the splice, [value] sits at its own lower bound. *)
Lemma lower_bound_after_insert s value :
  strict_weak_ordering (call (comp_ s)) -> I1 s ->
  end_or_greater s value (lower_bound s value) = true ->
  lower_bound (Base_insert s (lower_bound s value) value) value
  = lower_bound s value.
Proof.
  intros order Hs Htest.
  pose proof (Base_insert_I1 value order Hs Htest) as Hs'.
  rewrite (@lower_bound_scan _ _ _ _ (Base_insert _ _ _) value order Hs').
  rewrite (lower_bound_scan value order Hs).
  apply (first_not_less_insert order (elements s) value).
Qed.

Lemma insert_I1 s value :
  strict_weak_ordering (call (comp_ s)) -> I1 s ->
  I1 (fst (insert s value)) /\ comp_ (fst (insert s value)) = comp_ s.
Proof.
  intros order Hs.
  destruct (insert_cases s value) as [[Htest ->]|[_ ->]]; simpl.
  - split; [apply Base_insert_I1; assumption | reflexivity].
  - split; [assumption | reflexivity].
Qed.

Lemma Base_erase_range_I1 s first last :
  strict_weak_ordering (call (comp_ s)) -> I1 s -> first <= last ->
  I1 (Base_erase_range s first last).
Proof.
  intros order Hs Hle. apply I1_of_StronglySorted. simpl.
  apply StronglySorted_erase_range; [assumption|].
  apply I1_StronglySorted; assumption.
Qed.

Lemma Base_erase_I1 s pos :
  strict_weak_ordering (call (comp_ s)) -> I1 s -> I1 (Base_erase s pos).
Proof.
  intros order Hs.
  apply (@Base_erase_range_I1 s pos (S pos)); auto.
Qed.

Lemma erase_key_I1 s key :
  strict_weak_ordering (call (comp_ s)) -> I1 s ->
  I1 (fst (erase_key s key)) /\ comp_ (fst (erase_key s key)) = comp_ s.
Proof.
  intros order Hs. unfold erase_key.
  destruct (end_or_greater s key (lower_bound s key)); simpl.
  - split; [assumption | reflexivity].
  - split; [apply Base_erase_I1; assumption | reflexivity].
Qed.

Lemma Base_insert_deref s pos value :
  pos <= size s -> deref (Base_insert s pos value) pos = Some value.
Proof.
  intros Hle. unfold deref.
  change (elements (Base_insert s pos value))
    with (firstn pos (elements s) ++ value :: skipn pos (elements s)).
  rewrite nth_error_app2; rewrite firstn_length_le by exact Hle;
    [|apply Nat.le_refl].
  rewrite Nat.sub_diag. reflexivity.
Qed.

Lemma Base_insert_size s pos value :
  size (Base_insert s pos value) = S (size s).
Proof.
  unfold size.
  change (elements (Base_insert s pos value))
    with (firstn pos (elements s) ++ value :: skipn pos (elements s)).
  rewrite <- (firstn_skipn pos (elements s)) at 3.
  rewrite !length_app. simpl. lia.
Qed.

(** The position [insert] returns holds an element equivalent to the
    value, whether it was spliced in or found. *)
Lemma insert_points_to_equivalent s value :
  strict_weak_ordering (call (comp_ s)) -> I1 s ->
  exists p, deref (fst (insert s value)) (fst (snd (insert s value))) = Some p
            /\ equivalent (comp_ s) p value.
Proof.
  intros order Hs.
  destruct (lower_bound_partition value order Hs) as [Hle _].
  destruct (insert_cases s value) as [[Htest ->]|[Htest ->]]; simpl.
  - exists value. split; [apply Base_insert_deref; exact Hle|].
    split; apply (swo_irreflexive order).
  - apply lower_bound_hit; assumption.
Qed.

(** C2: on a set satisfying I1, [insert(value)] works at
    [lower_bound(value)], the first position whose element is not less than
    [value].  If that position is the end or holds a greater element,
    [value] is spliced in there and the result is that position with
    [true]; otherwise the set is returned unchanged with the position of
    the element equivalent to [value] and [false].  A second insertion of
    the same value returns that same position with [false] and changes
    nothing, so only the first call can change the size. *)
Theorem insert_at_lower_bound s value :
  strict_weak_ordering (call (comp_ s)) -> I1 s ->
  forall s' it inserted,
    insert s value = (s', (it, inserted)) ->
    let pos := lower_bound s value in
    pos = first_not_less (call (comp_ s)) (elements s) value /\
    it = pos /\
    (pos = end_ s \/
     (exists p, deref s pos = Some p /\ call (comp_ s) value p = true) ->
     inserted = true /\
     elements s' = firstn pos (elements s) ++ value :: skipn pos (elements s) /\
     deref s' it = Some value /\
     size s' = S (size s)) /\
    (~ (pos = end_ s \/
        exists p, deref s pos = Some p /\ call (comp_ s) value p = true) ->
     inserted = false /\ s' = s /\
     exists p, deref s it = Some p /\ equivalent (comp_ s) p value) /\
    insert s' value = (s', (it, false)) /\
    size s' = size s + (if inserted then 1 else 0).
Proof.
  intros order Hs s' it inserted Hins pos. subst pos.
  destruct (lower_bound_partition value order Hs) as [Hle _].
  pose proof (end_or_greater_true s value Hle) as Htrue.
  pose proof (lower_bound_scan value order Hs) as Hscan.
  remember (lower_bound s value) as pos eqn:Epos.
  destruct (insert_cases s value) as [[Htest E]|[Htest E]];
    rewrite <- Epos in Htest, E; rewrite E in Hins;
    injection Hins as <- <- <-.
  - split; [exact Hscan|]. split; [reflexivity|]. split; [|split; [|split]].
    + intros _. split; [reflexivity|]. split; [reflexivity|].
      split; [apply Base_insert_deref; exact Hle | apply Base_insert_size].
    + intros Hno. apply Htrue in Htest. contradiction.
    + assert (Hlb : lower_bound (Base_insert s pos value) value = pos).
      { rewrite Epos in Htest |- *.
        apply lower_bound_after_insert; assumption. }
      unfold insert. rewrite Hlb.
      replace (end_or_greater (Base_insert s pos value) value pos) with false;
        [reflexivity|].
      symmetry. apply end_or_greater_false.
      * rewrite Base_insert_size. lia.
      * exists value.
        split; [apply Base_insert_deref; exact Hle
               | apply (swo_irreflexive order)].
    + rewrite Base_insert_size. lia.
  - split; [exact Hscan|]. split; [reflexivity|]. split; [|split; [|split]].
    + intros Hyes. apply Htrue in Hyes. congruence.
    + intros _. repeat split.
      rewrite Epos in Htest |- *. apply lower_bound_hit; assumption.
    + unfold insert. rewrite <- Epos, Htest. reflexivity.
    + lia.
Qed.

(** C5: on a set satisfying I1, [erase(key)] returns 0 and the very same
    set (elements, comparator and allocator) when no element equivalent to
    [key] is present; when one is present, it returns 1 and the set without
    that element, in which nothing equivalent to [key] is left; comparator
    and allocator are the same. *)
Theorem erase_key_result s key :
  strict_weak_ordering (call (comp_ s)) -> I1 s ->
  (~ present s key -> erase_key s key = (s, 0)) /\
  (present s key ->
   exists l1 e l2,
     elements s = l1 ++ e :: l2 /\
     equivalent (comp_ s) e key /\
     (forall x, In x (l1 ++ l2) -> ~ equivalent (comp_ s) x key) /\
     erase_key s key
     = ({| Base := {| data := l1 ++ l2;
                      get_allocator := get_allocator (Base s) |};
           comp_ := comp_ s |}, 1)).
Proof.
  intros order Hs. split; intros Hp.
  - rewrite <- lower_bound_present in Hp by assumption.
    unfold erase_key.
    destruct (end_or_greater s key (lower_bound s key)); congruence.
  - pose proof Hp as Htest.
    rewrite <- lower_bound_present in Htest by assumption.
    pose proof Htest as Hhit.
    apply lower_bound_hit in Hhit as (p & Hpos & Heq); [|assumption..].
    exists (firstn (lower_bound s key) (elements s)), p,
           (skipn (S (lower_bound s key)) (elements s)).
    split; [symmetry; apply firstn_skipn_middle; exact Hpos|].
    split; [exact Heq|]. split.
    + intros x Hx Hxk.
      apply in_app_or in Hx as [Hx|Hx]; apply In_nth_error in Hx as [i Hi].
      * rewrite nth_error_firstn in Hi.
        destruct (Nat.ltb_spec i (lower_bound s key)); [|discriminate].
        pose proof (@equivalent_at_lower_bound _ _ _ _ s key i x order Hs Hi Hxk).
        lia.
      * rewrite nth_error_skipn in Hi.
        pose proof (@equivalent_at_lower_bound _ _ _ _ s key _ x order Hs Hi Hxk).
        lia.
    + unfold erase_key. rewrite Htest. reflexivity.
Qed.
End MutationFacts.

(** ** Hinted insertion *)

Section HintedInsert.
Context {T C A : Type} {compare : Compare T C} {alloc_traits : Allocator A}.
Implicit Types (s : DenseSet T C A) (key value : T) (hint : iterator).

(** The search of the hinted insertion, narrowed to one side of the hint,
    ends at the lower bound of the whole sequence. *)
Lemma narrowed_search s hint value p :
  strict_weak_ordering (call (comp_ s)) -> I1 s ->
  deref s hint = Some p ->
  (if call (comp_ s) value p
   then std_lower_bound (elements s) (begin s) hint value (call (comp_ s))
   else std_lower_bound (elements s) hint (end_ s) value (call (comp_ s)))
  = lower_bound s value.
Proof.
  intros order Hs Hp.
  destruct (lower_bound_partition value order Hs) as [Hle Hlow].
  assert (Hpart : partitioned_at (fun x => call (comp_ s) x value)
                                 (elements s) (lower_bound s value))
    by exact Hlow.
  assert (Hhint : hint < size s).
  { apply nth_error_Some. unfold deref in Hp. congruence. }
  destruct (call (comp_ s) value p) eqn:Hvp.
  - apply std_lower_bound_partition; [exact Hpart | | unfold size in *; lia].
    pose proof (Hlow _ _ Hp) as E.
    rewrite (lt_asymmetric order _ _ Hvp) in E.
    symmetry in E. apply Nat.ltb_ge in E. unfold begin. lia.
  - apply std_lower_bound_partition;
      [exact Hpart | | unfold end_, size; lia].
    split; [|exact Hle].
    destruct (Nat.le_gt_cases hint (lower_bound s value)) as [|Hlt];
      [assumption | exfalso].
    destruct (deref s (lower_bound s value)) as [q|] eqn:Hq.
    + pose proof (Hlow _ _ Hq) as E. rewrite Nat.ltb_irrefl in E.
      pose proof (@StronglySorted_nth _ (call (comp_ s)) _ _ _ _ _
                    (I1_StronglySorted order Hs) Hlt Hq Hp) as Hqp.
      rewrite (lt_negatively_transitive order _ _ _ Hqp Hvp) in E.
      discriminate.
    + apply nth_error_None in Hq. unfold size in *. lia.
Qed.

(** Whenever the hinted insertion is defined, it does what the plain
    insertion does. *)
Lemma insert_hint_agrees s hint value :
  strict_weak_ordering (call (comp_ s)) -> I1 s ->
  insert_hint s hint value = None \/
  insert_hint s hint value
  = Some (fst (insert s value), fst (snd (insert s value))).
Proof.
  intros order Hs.
  destruct (lower_bound_partition value order Hs) as [Hle Hlow].
  unfold insert_hint, empty.
  destruct (Nat.eqb_spec (size s) 0) as [Hempty|Hne].
  - (* empty set *)
    right.
    assert (Hlb : lower_bound s value = 0) by lia.
    unfold insert. rewrite Hlb.
    replace (end_or_greater s value 0) with true; [reflexivity|].
    symmetry. apply end_or_greater_true; [lia|].
    left. unfold end_. lia.
  - destruct (Nat.eqb_spec hint (end_ s)) as [Hend|Hmid].
    + (* hint at the end *)
      unfold back.
      destruct (deref s (size s - 1)) as [last_elem|] eqn:Hlast;
        [right | left; reflexivity].
      destruct (call (comp_ s) last_elem value) eqn:Hlv.
      * pose proof (Hlow _ _ Hlast) as E. rewrite Hlv in E.
        symmetry in E. apply Nat.ltb_lt in E.
        assert (Hlb : lower_bound s value = end_ s) by (unfold end_; lia).
        unfold insert. rewrite Hlb.
        replace (end_or_greater s value (end_ s)) with true; [reflexivity|].
        symmetry. apply end_or_greater_true;
          [unfold end_; lia | left; reflexivity].
      * destruct (insert s value) as [s' [it inserted]]. reflexivity.
    + (* hint inside the sequence *)
      destruct (deref s hint) as [p|] eqn:Hp; [right | left; reflexivity].
      rewrite (@narrowed_search s hint value p order Hs Hp).
      unfold insert.
      destruct (end_or_greater s value (lower_bound s value)); reflexivity.
Qed.

(** With a valid hint the hinted insertion is defined. *)
Lemma insert_hint_defined s hint value :
  hint <= size s -> insert_hint s hint value <> None.
Proof.
  intros Hhint. unfold insert_hint, empty, back.
  destruct (Nat.eqb_spec (size s) 0) as [Hempty|Hne]; [discriminate|].
  destruct (Nat.eqb_spec hint (end_ s)) as [Hend|Hmid].
  - destruct (deref s (size s - 1)) as [last_elem|] eqn:Hlast.
    + destruct (call (comp_ s) last_elem value); [discriminate|].
      destruct (insert s value) as [s' [it inserted]]. discriminate.
    + apply nth_error_None in Hlast. unfold size in *. lia.
  - destruct (deref s hint) as [p|] eqn:Hp.
    + destruct (end_or_greater s value _); discriminate.
    + apply nth_error_None in Hp. unfold end_, size in *. lia.
Qed.

(** C3: on a set satisfying I1 and for every valid hint, [begin()] and
    [end()] included, [insert(hint, value)] leaves the same set as
    [insert(value)] and returns the same position, which holds an element
    equivalent to [value]. *)
Theorem insert_hint_as_insert s hint value :
  strict_weak_ordering (call (comp_ s)) -> I1 s -> hint <= size s ->
  exists s' it inserted,
    insert s value = (s', (it, inserted)) /\
    insert_hint s hint value = Some (s', it) /\
    exists p, deref s' it = Some p /\ equivalent (comp_ s) p value.
Proof.
  intros order Hs Hhint.
  pose proof (insert_points_to_equivalent value order Hs) as Hex.
  destruct (@insert_hint_agrees s hint value order Hs) as [Hnone|Hsome].
  - destruct (@insert_hint_defined s hint value Hhint Hnone).
  - destruct (insert s value) as [s' [it inserted]].
    exists s', it, inserted. repeat split; assumption.
Qed.
End HintedInsert.

(** ** Sequences of mutations and construction *)

Section Sequences.
Context {T C A : Type} {compare : Compare T C} {alloc_traits : Allocator A}.
Implicit Types (s : DenseSet T C A) (m : mutation (T := T)) (c : C).

Lemma insert_range_I1 values : forall s,
  strict_weak_ordering (call (comp_ s)) -> I1 s ->
  I1 (insert_range s values) /\ comp_ (insert_range s values) = comp_ s.
Proof.
  induction values as [|v values IH]; intros s order Hs.
  - split; [assumption | reflexivity].
  - destruct (insert_I1 v order Hs) as [Hs' Hc].
    change (insert_range s (v :: values))
      with (insert_range (fst (insert s v)) values).
    destruct (IH (fst (insert s v))) as [H1 H2];
      [rewrite Hc; exact order | exact Hs' |].
    split; [exact H1 | congruence].
Qed.

(** Every mutation keeps the invariant and the comparator. *)
Lemma apply_I1 s m s' :
  strict_weak_ordering (call (comp_ s)) -> I1 s ->
  apply s m = Some s' -> I1 s' /\ comp_ s' = comp_ s.
Proof.
  intros order Hs Happ.
  destruct m as [v|pos v|vs|v|pos|first last|key]; simpl in Happ.
  - injection Happ as <-. apply insert_I1; assumption.
  - destruct (insert_hint_agrees pos v order Hs) as [E|E];
      rewrite E in Happ; [discriminate|].
    injection Happ as <-. apply insert_I1; assumption.
  - injection Happ as <-. apply insert_range_I1; assumption.
  - injection Happ as <-. apply insert_I1; assumption.
  - unfold erase in Happ.
    destruct (pos <? size s); [|discriminate].
    injection Happ as <-.
    split; [apply Base_erase_I1; assumption | reflexivity].
  - unfold erase_range in Happ.
    destruct (Nat.leb_spec first last); [|discriminate].
    destruct (last <=? size s); [|discriminate].
    injection Happ as <-.
    split; [apply Base_erase_range_I1; assumption | reflexivity].
  - injection Happ as <-. apply erase_key_I1; assumption.
Qed.

(** A mutation whose iterator arguments are valid is defined. *)
Lemma apply_defined s m : valid_for s m = true -> apply s m <> None.
Proof.
  destruct m as [v|pos v|vs|v|pos|first last|key]; simpl; intros Hv;
    try discriminate.
  - apply Nat.leb_le in Hv.
    pose proof (@insert_hint_defined _ _ _ _ s pos v Hv).
    destruct (insert_hint s pos v); [discriminate | congruence].
  - unfold erase. rewrite Hv. discriminate.
  - unfold erase_range. rewrite Hv. discriminate.
Qed.

(** The mutations taken alone: from a set satisfying I1, whose comparator
    is a strict weak ordering, every state a sequence of insertions and
    erasures goes through satisfies I1, has no two equivalent elements and
    has the comparator of the start. *)
Lemma run_I1 ms : forall s states,
  strict_weak_ordering (call (comp_ s)) -> I1 s ->
  run s ms = Some states ->
  Forall (fun s' => I1 s' /\ no_duplicates s' /\ comp_ s' = comp_ s) states.
Proof.
  induction ms as [|m ms IH]; intros s states order Hs Hrun; simpl in Hrun.
  - injection Hrun as <-. constructor.
  - destruct (apply s m) as [s1|] eqn:Happ; [|discriminate].
    destruct (run s1 ms) as [rest|] eqn:Hrest; [|discriminate].
    injection Hrun as <-.
    destruct (apply_I1 _ order Hs Happ) as [Hs1 Hc1].
    assert (order1 : strict_weak_ordering (call (comp_ s1)))
      by (rewrite Hc1; exact order).
    constructor.
    + repeat split; [assumption | | assumption].
      apply I1_no_duplicates; assumption.
    + specialize (IH s1 rest order1 Hs1 Hrest).
      rewrite Hc1 in IH. exact IH.
Qed.

(** A sequence whose iterator arguments are valid throughout runs to its
    end. *)
Lemma run_defined ms : forall s, valid_run s ms = true -> run s ms <> None.
Proof.
  induction ms as [|m ms IH]; intros s Hvalid; simpl in *.
  - discriminate.
  - apply andb_true_iff in Hvalid as [Hm Hrest].
    destruct (apply s m) as [s1|] eqn:Happ.
    + specialize (IH s1 Hrest).
      destruct (run s1 ms); [discriminate | congruence].
    + destruct (apply_defined s m Hm Happ).
Qed.

(** What the constructors establish. *)
Lemma DenseSet_default_I1 : I1 (DenseSet_default (T := T) (C := C) (A := A)).
Proof. constructor. Qed.

Lemma DenseSet_alloc_I1 (alloc : A) : I1 (DenseSet_alloc (T := T) (C := C) alloc).
Proof. constructor. Qed.

Lemma DenseSet_comp_I1 c (alloc : A) : I1 (DenseSet_comp (T := T) c alloc).
Proof. constructor. Qed.

Lemma DenseSet_range_I1 values c (alloc : A) :
  strict_weak_ordering (call c) ->
  I1 (DenseSet_range values c alloc) /\
  comp_ (DenseSet_range values c alloc) = c.
Proof.
  intros order. unfold DenseSet_range.
  apply (@insert_range_I1 values (DenseSet_comp c alloc)); [exact order|].
  apply DenseSet_comp_I1.
Qed.

Lemma DenseSet_copy_I1 s (alloc : A) :
  I1 s -> I1 (DenseSet_copy s) /\ I1 (DenseSet_copy_alloc s alloc).
Proof. intros Hs. split; exact Hs. Qed.

Lemma DenseSet_move_alloc_I1 s (alloc : A) :
  I1 s ->
  I1 (fst (DenseSet_move_alloc s alloc)) /\
  I1 (snd (DenseSet_move_alloc s alloc)).
Proof. intros Hs. split; [exact Hs | constructor]. Qed.

(** The constructor [DenseSet(DenseSet&&)] hands the elements over to a set
    whose comparator is [C()]: I1 is kept when [C()] orders as the
    comparator of the source does. *)
Lemma DenseSet_move_I1 s :
  I1 s ->
  (forall x y, call (C_default (T := T)) x y = call (comp_ s) x y) ->
  I1 (fst (DenseSet_move s)) /\ I1 (snd (DenseSet_move s)).
Proof.
  intros Hs Hsame. split; [|constructor].
  unfold I1 in *.
  change (elements (fst (DenseSet_move s))) with (elements s).
  change (comp_ (fst (DenseSet_move s))) with (C_default (T := T)).
  revert Hs. generalize (elements s) as l. intros l Hl.
  induction Hl as [|a l Hl IH Ha]; constructor; [assumption|].
  destruct Ha as [|b l Hab]; constructor.
  rewrite Hsame. exact Hab.
Qed.
End Sequences.

(** ** Moves and swaps *)

Section Protocol.
Context {T C A : Type} {compare : Compare T C} {alloc_traits : Allocator A}.
Implicit Types (a b this : DenseSet T C A) (alloc : A).

(** C10: the set built by [DenseSet b(std::move(a))] has the elements of
    [a], a default constructed allocator and a default constructed
    comparator: the delegated-to constructor swaps the comparator of [a]
    in, the body of the delegating constructor swaps it back.  [a] is left
    empty, with the comparator and the allocator it had. *)
Theorem move_constructor_state a :
  get_allocator (Base (fst (DenseSet_move a))) = A_default /\
  comp_ (fst (DenseSet_move_alloc a A_default)) = comp_ a /\
  comp_ (fst (DenseSet_move a)) = C_default /\
  comp_ (snd (DenseSet_move a)) = comp_ a /\
  elements (fst (DenseSet_move a)) = elements a /\
  elements (snd (DenseSet_move a)) = [] /\
  get_allocator (Base (snd (DenseSet_move a))) = get_allocator (Base a).
Proof. repeat split. Qed.

(** C4, as the code has it: every move leaves the source empty.  The
    constructor taking an allocator leaves it with a default constructed
    comparator, which differs from the one it had whenever that one was
    not the default; move assignment leaves its comparator in the state the
    move assignment of [C] leaves a source in. *)
Theorem moved_from_state a this alloc :
  empty (snd (DenseSet_move a)) = true /\
  empty (snd (DenseSet_move_alloc a alloc)) = true /\
  empty (snd (move_assign this a)) = true /\
  comp_ (snd (DenseSet_move_alloc a alloc)) = C_default /\
  (comp_ a <> C_default ->
   comp_ (snd (DenseSet_move_alloc a alloc)) <> comp_ a) /\
  comp_ (snd (move_assign this a)) = C_moved_from (comp_ a) /\
  comp_ (fst (move_assign this a)) = comp_ a /\
  elements (fst (move_assign this a)) = elements a.
Proof.
  repeat split. simpl. intros Hne E. apply Hne. symmetry. exact E.
Qed.

(** C8 on the code: the swap of two sets that runs, the generic
    [std::swap], exchanges the elements, and the first set receives the
    comparator of the second; the second set does not receive the comparator
    of the first but a default constructed one, the temporary having been
    built by the move constructor that swaps the comparator twice. *)
Lemma std_swap_DenseSet_comparators a b :
  elements (fst (std_swap_DenseSet a b)) = elements b /\
  comp_ (fst (std_swap_DenseSet a b)) = comp_ b /\
  elements (snd (std_swap_DenseSet a b)) = elements a /\
  comp_ (snd (std_swap_DenseSet a b)) = C_default.
Proof. repeat split. Qed.
End Protocol.

(** ** Equality of sets *)

Section Equality.
Context {T C A : Type} {compare : Compare T C} {alloc_traits : Allocator A}.
Context {equality : EqualityComparable T}.
Implicit Types (a b s : DenseSet T C A) (c : C).

Lemma absl_equal_elementwise (eqb : T -> T -> bool) (l1 l2 : list T) :
  absl_equal eqb l1 l2 = true <->
  length l1 = length l2 /\
  forall i x y, nth_error l1 i = Some x -> nth_error l2 i = Some y ->
                eqb x y = true.
Proof.
  revert l2. induction l1 as [|x l1 IH]; intros [|y l2]; simpl.
  - split; [intros _|reflexivity].
    split; [reflexivity|]. intros [|i]; discriminate.
  - split; [discriminate | intros [? _]; discriminate].
  - split; [discriminate | intros [? _]; discriminate].
  - rewrite andb_true_iff, IH. split.
    + intros [Hxy [Hlen Hrest]]. split; [congruence|].
      intros [|i] x' y' Hx' Hy'; simpl in *.
      * congruence.
      * eapply Hrest; eassumption.
    + intros [Hlen Hall]. split; [|split].
      * apply (Hall 0); reflexivity.
      * congruence.
      * intros i x' y' Hx' Hy'. apply (Hall (S i)); assumption.
Qed.

Lemma absl_equal_refl (eqb : T -> T -> bool) (l : list T) :
  (forall x, eqb x x = true) -> absl_equal eqb l l = true.
Proof.
  intros Hrefl. induction l as [|x l IH]; simpl; [reflexivity|].
  rewrite Hrefl, IH. reflexivity.
Qed.

(** The members of a set after an insertion, when the value is equivalent
    to no other element. *)
Lemma insert_members s v :
  strict_weak_ordering (call (comp_ s)) -> I1 s ->
  (forall e, In e (elements s) -> equivalent (comp_ s) e v -> e = v) ->
  forall x, In x (elements (fst (insert s v))) <-> x = v \/ In x (elements s).
Proof.
  intros order Hs Hdistinct x.
  destruct (insert_cases s v) as [[Htest ->]|[Htest ->]]; simpl.
  - change (elements (Base_insert s (lower_bound s v) v))
      with (firstn (lower_bound s v) (elements s) ++ v
                   :: skipn (lower_bound s v) (elements s)).
    rewrite <- (firstn_skipn (lower_bound s v) (elements s)) at 3.
    rewrite !in_app_iff. simpl. intuition congruence.
  - apply lower_bound_hit in Htest as (p & Hp & Heq); [|assumption..].
    apply nth_error_In in Hp. rewrite (Hdistinct _ Hp Heq) in Hp.
    split; [auto | intros [->|H]; assumption].
Qed.

Lemma insert_range_members values : forall s,
  strict_weak_ordering (call (comp_ s)) -> I1 s ->
  (forall x y, In x (elements s) \/ In x values -> In y values ->
               equivalent (comp_ s) x y -> x = y) ->
  forall x, In x (elements (insert_range s values)) <->
            In x (elements s) \/ In x values.
Proof.
  induction values as [|v values IH]; intros s order Hs Hdistinct x.
  - simpl. tauto.
  - destruct (insert_I1 v order Hs) as [Hs' Hc].
    assert (Hmem : forall x, In x (elements (fst (insert s v))) <->
                             x = v \/ In x (elements s)).
    { apply insert_members; [assumption..|].
      intros e He. apply Hdistinct; [left; exact He | left; reflexivity]. }
    change (insert_range s (v :: values))
      with (insert_range (fst (insert s v)) values).
    rewrite IH; [| rewrite Hc; exact order | exact Hs' |].
    + rewrite Hmem. simpl. intuition congruence.
    + rewrite Hc. intros x' y' Hx' Hy'.
      apply Hdistinct; [|right; exact Hy'].
      destruct Hx' as [Hx'|Hx']; [|right; right; exact Hx'].
      apply Hmem in Hx' as [->|Hx']; [right; left; reflexivity | left; exact Hx'].
Qed.

(** Sets built from the same values in any order have the same elements,
    when no two different values are equivalent. *)
Lemma DenseSet_range_permutation c1 c2 (al1 al2 : A) (vs1 vs2 : list T) :
  strict_weak_ordering (call c1) ->
  (forall x y, call c1 x y = call c2 x y) ->
  (forall x y, In x vs1 -> In y vs1 -> equivalent c1 x y -> x = y) ->
  Permutation vs1 vs2 ->
  elements (DenseSet_range vs1 c1 al1) = elements (DenseSet_range vs2 c2 al2).
Proof.
  intros order1 Hsame Hdistinct Hperm.
  assert (order2 : strict_weak_ordering (call c2)).
  { destruct order1 as [Hirr Htr Hinc]. constructor.
    - intros x. rewrite <- Hsame. apply Hirr.
    - intros x y z. rewrite <- !Hsame. apply Htr.
    - intros x y z. rewrite <- !Hsame. apply Hinc. }
  destruct (@DenseSet_range_I1 _ _ _ _ vs1 c1 al1 order1) as [Hs1 Hc1].
  destruct (@DenseSet_range_I1 _ _ _ _ vs2 c2 al2 order2) as [Hs2 Hc2].
  apply (StronglySorted_unique order1).
  - pose proof (I1_StronglySorted (s := DenseSet_range vs1 c1 al1)) as H.
    rewrite Hc1 in H. apply H; assumption.
  - pose proof (I1_StronglySorted (s := DenseSet_range vs2 c2 al2)) as H.
    rewrite Hc2 in H. specialize (H order2 Hs2).
    revert H. generalize (elements (DenseSet_range vs2 c2 al2)) as l.
    induction 1 as [|x l Hl IH Hx]; constructor; [assumption|].
    rewrite Forall_forall in Hx |- *. intros y Hy.
    rewrite Hsame. auto.
  - intros x. unfold DenseSet_range.
    rewrite !insert_range_members; simpl.
    + split; intros [[]|H]; right.
      * eapply Permutation_in; eassumption.
      * eapply Permutation_in; [apply Permutation_sym|]; eassumption.
    + exact order2.
    + apply DenseSet_comp_I1.
    + intros x' y' [[]|Hx'] Hy' [E1 E2].
      apply Hdistinct.
      * eapply Permutation_in; [apply Permutation_sym|]; eassumption.
      * eapply Permutation_in; [apply Permutation_sym|]; eassumption.
      * split; rewrite Hsame; assumption.
    + exact order1.
    + apply DenseSet_comp_I1.
    + intros x' y' [[]|Hx'] Hy'. apply Hdistinct; assumption.
Qed.

(** C9, as the code has it: [a == b] holds exactly when the two element
    sequences have the same size and are element-wise equal in iteration
    order, whatever the comparators and allocators are.  Two sets built by
    inserting the same collection of values in different orders, under
    comparators that order alike, compare equal provided no two different
    values of the collection are equivalent under the comparator. *)
Theorem op_eq_elementwise a b :
  (op_eq a b = true <->
   size a = size b /\
   forall i x y, deref a i = Some x -> deref b i = Some y -> eq_op x y = true)
  /\
  (forall a' b', elements a' = elements a -> elements b' = elements b ->
                 op_eq a' b' = op_eq a b)
  /\
  (forall c1 c2 (al1 al2 : A) (vs1 vs2 : list T),
      (forall x : T, eq_op x x = true) ->
      strict_weak_ordering (call c1) ->
      (forall x y, call c1 x y = call c2 x y) ->
      (forall x y, In x vs1 -> In y vs1 -> equivalent c1 x y -> x = y) ->
      Permutation vs1 vs2 ->
      op_eq (DenseSet_range vs1 c1 al1) (DenseSet_range vs2 c2 al2) = true).
Proof.
  split; [|split].
  - apply absl_equal_elementwise.
  - intros a' b' Ha Hb. unfold op_eq. rewrite Ha, Hb. reflexivity.
  - intros c1 c2 al1 al2 vs1 vs2 Hrefl order Hsame Hdistinct Hperm.
    unfold op_eq.
    rewrite (@DenseSet_range_permutation c1 c2 al1 al2 vs1 vs2
                                         order Hsame Hdistinct Hperm).
    apply absl_equal_refl. exact Hrefl.
Qed.
End Equality.

(** ** The comparators of the instantiations *)

Lemma Zltb_strict_weak_ordering : strict_weak_ordering Z.ltb.
Proof.
  constructor.
  - intros x. apply Z.ltb_irrefl.
  - intros x y z Hxy Hyz. apply Z.ltb_lt in Hxy, Hyz. apply Z.ltb_lt. lia.
  - intros x y z Hxy Hyx Hyz Hzy.
    apply Z.ltb_ge in Hxy, Hyx, Hyz, Hzy.
    split; apply Z.ltb_ge; lia.
Qed.

Lemma Zgtb_strict_weak_ordering :
  strict_weak_ordering (fun x y => Z.ltb y x).
Proof.
  constructor.
  - intros x. apply Z.ltb_irrefl.
  - intros x y z Hxy Hyz. apply Z.ltb_lt in Hxy, Hyz. apply Z.ltb_lt. lia.
  - intros x y z Hxy Hyx Hyz Hzy.
    apply Z.ltb_ge in Hxy, Hyx, Hyz, Hzy.
    split; apply Z.ltb_ge; lia.
Qed.

Lemma Cmp_strict_weak_ordering (c : test_compare_less) :
  strict_weak_ordering (call c).
Proof. exact Zltb_strict_weak_ordering. Qed.

Lemma CmpG_strict_weak_ordering (c : test_compare_greater) :
  strict_weak_ordering (call c).
Proof. exact Zgtb_strict_weak_ordering. Qed.

Lemma direction_strict_weak_ordering (d : direction) :
  strict_weak_ordering (call d).
Proof.
  destruct d; [exact Zltb_strict_weak_ordering | exact Zgtb_strict_weak_ordering].
Qed.

Lemma by_magnitude_strict_weak_ordering (c : by_magnitude) :
  strict_weak_ordering (call c).
Proof.
  constructor; simpl.
  - intros x. apply Z.ltb_irrefl.
  - intros x y z Hxy Hyz. apply Z.ltb_lt in Hxy, Hyz. apply Z.ltb_lt. lia.
  - intros x y z Hxy Hyx Hyz Hzy.
    apply Z.ltb_ge in Hxy, Hyx, Hyz, Hzy.
    split; apply Z.ltb_ge; lia.
Qed.

(** Under [std::less<int>] equivalent integers are equal. *)
Lemma Cmp_equivalent_eq (c : test_compare_less) (x y : Z) :
  equivalent c x y -> x = y.
Proof.
  intros [Hxy Hyx]. simpl in Hxy, Hyx.
  apply Z.ltb_ge in Hxy, Hyx. lia.
Qed.

(** A set whose check computes to [true] satisfies I1, and conversely. *)
Lemma I1b_I1 {T C A : Type} {compare : Compare T C} (s : DenseSet T C A) :
  I1b s = true <-> I1 s.
Proof. apply sortedb_Sorted. Qed.

(** ** The scenarios of the test-suite and the instances of the theorems *)

Section Scenarios.
Local Open Scope Z_scope.

(** Inserting 1, 7, 5 into an empty set yields 1, 5, 7; the duplicate of a
    range is dropped. *)
Example scenario_insert_range :
  elements (denseSet_init [1; 7; 5] 0 0) = [1; 5; 7] /\
  elements (denseSet_init [4; 13; 5; 5; 9] 0 0) = [4; 5; 9; 13].
Proof. split; reflexivity. Qed.

Example scenario_equal_range :
  equal_range (denseSet_init [1; 3; 5; 7; 9] 0 0) 5 = (2%nat, 3%nat) /\
  equal_range (denseSet_init [2; 4; 6; 7; -9] 0 0) 11 = (5%nat, 5%nat) /\
  equal_range (denseSet_init [2; 4; 6; 7; -9] 0 0) 3 = (2%nat, 2%nat).
Proof. repeat split. Qed.

Example scenario_hints :
  option_map snd (insert_hint (denseSet_init [-1; -3] 0 0) 2%nat 3)
  = Some 2%nat /\
  option_map snd (insert_hint (denseSet_init [-1; -3] 0 0) 2%nat (-1))
  = Some 1%nat /\
  option_map snd (insert_hint (denseSet_init [4; 2; -1; 5] 0 0) 0%nat (-3))
  = Some 0%nat /\
  option_map snd (insert_hint (denseSet_init [4; 2; -1; 5] 0 0) 0%nat 4)
  = Some 2%nat.
Proof. repeat split. Qed.

(** The instance of C2 at the test InsertExistingKey-like scenario: 1 is
    inserted again into the set of 1, 5, 7. *)
Lemma insert_at_lower_bound_witness :
  let s := denseSet_init [1; 7; 5] 0 0 in
  strict_weak_ordering (call (comp_ s)) /\ I1 s /\
  insert s 1 = (s, (0%nat, false)) /\
  (size s = size s + 0)%nat.
Proof.
  intros s.
  assert (order : strict_weak_ordering (call (comp_ s)))
    by apply Cmp_strict_weak_ordering.
  assert (Hs : I1 s) by (apply I1b_I1; reflexivity).
  split; [exact order|]. split; [exact Hs|].
  destruct (@insert_at_lower_bound _ _ _ _ s 1 order Hs s 0%nat false eq_refl)
    as (_ & _ & _ & _ & Hagain & Hsize).
  split; [exact Hagain | exact Hsize].
Defined.

(** The instance of C3 at the test InsertHintKeyBegin. *)
Lemma insert_hint_as_insert_witness :
  let s := denseSet_init [4; 2; -1; 5] 0 0 in
  (0 <= size s)%nat /\
  exists s' it inserted,
    insert s (-3) = (s', (it, inserted)) /\
    insert_hint s 0%nat (-3) = Some (s', it) /\
    exists p, deref s' it = Some p /\ equivalent (comp_ s) p (-3).
Proof.
  intros s. split; [apply Nat.le_0_l|].
  apply insert_hint_as_insert.
  - apply Cmp_strict_weak_ordering.
  - apply I1b_I1. reflexivity.
  - apply Nat.le_0_l.
Defined.

(** The instance of C5 at the test EraseKey-like scenario: 5 is erased from
    the set of 1, 5, 7. *)
Lemma erase_key_result_witness :
  let s := denseSet_init [1; 7; 5] 0 0 in
  present s 5 /\
  exists l1 e l2,
    elements s = l1 ++ e :: l2 /\
    equivalent (comp_ s) e 5 /\
    (forall x, In x (l1 ++ l2) -> ~ equivalent (comp_ s) x 5) /\
    erase_key s 5
    = ({| Base := {| data := l1 ++ l2;
                     get_allocator := get_allocator (Base s) |};
          comp_ := comp_ s |}, 1%nat).
Proof.
  intros s.
  assert (Hp : present s 5).
  { exists 5. split; [right; left; reflexivity | split; reflexivity]. }
  split; [exact Hp|].
  apply (@erase_key_result _ _ _ _ s 5); [| | exact Hp].
  - apply Cmp_strict_weak_ordering.
  - apply I1b_I1. reflexivity.
Defined.

(** The instance of C6 at the test Find. *)
Lemma find_contains_count_witness :
  let s := denseSet_init [-12; 42; 7; 5] 0 0 in
  I1 s /\ find s 7 = 2%nat /\ equivalent (comp_ s) 7 7 /\
  (contains s 43 = true <-> find s 43 <> end_ s).
Proof.
  intros s.
  assert (Hs : I1 s) by (apply I1b_I1; reflexivity).
  split; [exact Hs|].
  destruct (@find_contains_count _ _ _ _ s 7 (Cmp_strict_weak_ordering _) Hs)
    as (Hfound & _).
  destruct (@find_contains_count _ _ _ _ s 43 (Cmp_strict_weak_ordering _) Hs)
    as (_ & _ & Hcontains & _).
  destruct (Hfound 7 eq_refl eq_refl) as [Hfind Heq].
  split; [exact Hfind|]. split; [exact Heq | exact Hcontains].
Defined.

(** The instance of C7 at the test EqualRangeFound. *)
Lemma equal_range_bounds_witness :
  let s := denseSet_init [1; 3; 5; 7; 9] 0 0 in
  I1 s /\ present s 5 /\ upper_bound s 5 = S (lower_bound s 5).
Proof.
  intros s.
  assert (Hs : I1 s) by (apply I1b_I1; reflexivity).
  assert (Hp : present s 5).
  { exists 5. split; [right; right; left; reflexivity | split; reflexivity]. }
  split; [exact Hs|]. split; [exact Hp|].
  destruct (@equal_range_bounds _ _ _ _ s 5 (Cmp_strict_weak_ordering _) Hs)
    as (_ & _ & _ & _ & _ & _ & Hpresent).
  exact (Hpresent Hp).
Defined.

(** The instance of the corrected C4 at the test MoveConstructorAlloc. *)
Lemma moved_from_state_witness :
  let a := denseSet_init [2; 11; -5; 6] 7 4 in
  comp_ a <> C_default /\
  comp_ (snd (DenseSet_move_alloc a (Alloc 4))) <> comp_ a /\
  empty (snd (DenseSet_move_alloc a (Alloc 4))) = true.
Proof.
  intros a.
  assert (Hne : comp_ a <> C_default) by discriminate.
  split; [exact Hne|].
  destruct (moved_from_state a a (Alloc 4))
    as (_ & Hempty & _ & _ & Hobservable & _).
  split; [exact (Hobservable Hne) | exact Hempty].
Defined.

(** C4 as stated fails on move assignment: the source of
    [other = std::move(a)] is empty but keeps the comparator it had, which
    is not the default one. *)
Lemma move_assign_keeps_source_comparator :
  let a := denseSet_init [-13; 12; -5; 5] 5 5 in
  let a' := snd (move_assign (DenseSet_default : denseSet) a) in
  comp_ a <> C_default /\
  empty a' = true /\
  comp_ a' = Cmp 5 /\
  ~ comp_ a' = C_default /\
  ~ comp_ a' <> comp_ a.
Proof.
  intros a a'. repeat split; try discriminate.
  intros H. apply H. reflexivity.
Qed.

(** The instance of the corrected C9 at the values of the tests, inserted
    in two orders under two comparator objects. *)
Lemma op_eq_elementwise_witness :
  Permutation [1; 7; 5] [5; 1; 7] /\
  op_eq (DenseSet_range [1; 7; 5] (Cmp 0) (Alloc 0))
        (DenseSet_range [5; 1; 7] (Cmp 3) (Alloc 1)) = true.
Proof.
  assert (Hperm : Permutation [1; 7; 5] [5; 1; 7]).
  { apply perm_trans with (l' := [1; 5; 7]).
    - apply perm_skip. apply perm_swap.
    - apply perm_swap. }
  split; [exact Hperm|].
  destruct (@op_eq_elementwise _ _ _ _ _
              (denseSet_init [] 0 0) (denseSet_init [] 0 0))
    as (_ & _ & Horders).
  apply Horders.
  - exact Z.eqb_refl.
  - apply Cmp_strict_weak_ordering.
  - reflexivity.
  - intros x y _ _. apply Cmp_equivalent_eq.
  - exact Hperm.
Defined.

(** C9 as stated fails for a comparator under which different values are
    equivalent: the first value inserted of each class stays. *)
Lemma same_values_unequal_sets :
  let a : magnitudeSet := DenseSet_range [1; -1] ByMagnitude (Alloc 0) in
  let b : magnitudeSet := DenseSet_range [-1; 1] ByMagnitude (Alloc 0) in
  strict_weak_ordering (call ByMagnitude) /\
  Permutation [1; -1] [-1; 1] /\
  elements a = [1] /\ elements b = [-1] /\
  op_eq a b = false /\ ~ op_eq a b = true.
Proof.
  intros a b.
  split; [apply by_magnitude_strict_weak_ordering|].
  split; [apply perm_swap|].
  repeat split. discriminate.
Qed.

(** C1 at its failing input: a set move-constructed from a set ordered
    descending holds the elements in descending order under the default,
    ascending comparator, and an insertion leaves it unordered. *)
Theorem move_constructed_set_breaks_I1 :
  let a : directedSet := DenseSet_range [1; 2; 3] Descending (Alloc 0) in
  let b := fst (DenseSet_move a) in
  (forall d : direction, strict_weak_ordering (call d)) /\
  I1 a /\
  elements b = [3; 2; 1] /\ comp_ b = Ascending /\ ~ I1 b /\
  exists b', run b [Insert 0] = Some [b'] /\
             elements b' = [0; 3; 2; 1] /\ comp_ b' = Ascending /\ ~ I1 b'.
Proof.
  intros a b.
  split; [exact direction_strict_weak_ordering|].
  split; [apply I1b_I1; reflexivity|].
  split; [reflexivity|]. split; [reflexivity|].
  split; [intros H; apply I1b_I1 in H; discriminate|].
  eexists. split; [reflexivity|].
  split; [reflexivity|]. split; [reflexivity|].
  intros H. apply I1b_I1 in H. discriminate.
Qed.

(** The test Swap with comparators that are not the default one: the
    elements are exchanged, the first set gets [Cmp(2)], the second
    [Cmp(0)] where it should get [Cmp(1)]. *)
Example scenario_swap :
  let a := denseSet_init [2; 4] 1 0 in
  let b := denseSet_init [3] 2 0 in
  elements (fst (std_swap_DenseSet a b)) = [3] /\
  elements (snd (std_swap_DenseSet a b)) = [2; 4] /\
  comp_ (fst (std_swap_DenseSet a b)) = Cmp 2 /\
  comp_ (snd (std_swap_DenseSet a b)) = Cmp 0 /\
  comp_ (snd (std_swap_DenseSet a b)) <> comp_ a.
Proof. repeat split. discriminate. Qed.
End Scenarios.

(** * Further properties of the operations *)

Unset Implicit Arguments.

(** ** Splicing and cutting a sequence *)

Section SpliceFacts.
Variable T : Type.
Implicit Types (l : list T) (x v : T).

Lemma In_splice l k v x :
  In x (firstn k l ++ v :: skipn k l) <-> x = v \/ In x l.
Proof.
  rewrite <- (firstn_skipn k l) at 3.
  rewrite !in_app_iff. simpl. intuition congruence.
Qed.

Lemma length_splice l k v :
  length (firstn k l ++ v :: skipn k l) = S (length l).
Proof.
  rewrite <- (firstn_skipn k l) at 3.
  rewrite !length_app. simpl. lia.
Qed.

Lemma nth_error_cut l first last i :
  first <= last -> last <= length l ->
  nth_error (firstn first l ++ skipn last l) i
  = if i <? first then nth_error l i else nth_error l (i + (last - first)).
Proof.
  intros Hfl Hlast.
  rewrite nth_error_app, firstn_length_le by lia.
  destruct (Nat.ltb_spec i first) as [Hi|Hi].
  - rewrite nth_error_firstn.
    destruct (Nat.ltb_spec i first); [reflexivity | lia].
  - rewrite nth_error_skipn. f_equal. lia.
Qed.

Lemma length_cut l first last :
  first <= last -> last <= length l ->
  length (firstn first l ++ skipn last l) + (last - first) = length l.
Proof.
  intros Hfl Hlast.
  rewrite length_app, firstn_length_le, length_skipn by lia. lia.
Qed.

Lemma In_cut_one l p x :
  p < length l ->
  In x (firstn p l ++ skipn (S p) l) <->
  exists i, i <> p /\ nth_error l i = Some x.
Proof.
  intros Hp. split.
  - intros Hx. apply In_nth_error in Hx as [i Hi].
    rewrite nth_error_cut in Hi by lia.
    destruct (Nat.ltb_spec i p).
    + exists i. split; [lia | exact Hi].
    + exists (i + (S p - p)). split; [lia | exact Hi].
  - intros (i & Hne & Hi).
    destruct (Nat.lt_ge_cases i p) as [Hlt|Hge].
    + apply (nth_error_In _ i). rewrite nth_error_cut by lia.
      destruct (Nat.ltb_spec i p); [exact Hi | lia].
    + apply (nth_error_In _ (i - 1)). rewrite nth_error_cut by lia.
      destruct (Nat.ltb_spec (i - 1) p); [lia|].
      replace (i - 1 + (S p - p)) with i by lia. exact Hi.
Qed.

(** Cutting out what was spliced in gives the sequence back. *)
Lemma cut_splice l k v :
  k <= length l ->
  firstn k (firstn k l ++ v :: skipn k l)
  ++ skipn (S k) (firstn k l ++ v :: skipn k l) = l.
Proof.
  intros Hk.
  rewrite firstn_app, skipn_app, firstn_length_le by exact Hk.
  rewrite Nat.sub_diag, firstn_firstn, Nat.min_id.
  replace (S k - k) with 1 by lia.
  rewrite (skipn_all2 (firstn k l)) by (rewrite firstn_length_le; lia).
  simpl. rewrite app_nil_r. apply firstn_skipn.
Qed.

Lemma StronglySorted_In_cases (lt : T -> T -> bool) l x y :
  StronglySorted (fun a b => lt a b = true) l ->
  In x l -> In y l -> x = y \/ lt x y = true \/ lt y x = true.
Proof.
  induction 1 as [|a l Hs IH Ha]; intros Hx Hy; [destruct Hx|].
  rewrite Forall_forall in Ha.
  destruct Hx as [<-|Hx], Hy as [<-|Hy]; auto.
Qed.
End SpliceFacts.

(** ** Membership after an insertion or an erasure *)

Section MembershipFacts.
Context {T C A : Type} {compare : Compare T C} {alloc_traits : Allocator A}.
Implicit Types (s : DenseSet T C A) (key value k v w : T) (c : C).

Lemma equivalent_refl c k :
  strict_weak_ordering (call c) -> equivalent c k k.
Proof. intros order. split; apply (swo_irreflexive order). Qed.

Lemma equivalent_sym c x y : equivalent c x y -> equivalent c y x.
Proof. intros [H1 H2]. split; assumption. Qed.

Lemma equivalent_trans c x y z :
  strict_weak_ordering (call c) ->
  equivalent c x y -> equivalent c y z -> equivalent c x z.
Proof.
  intros order [H1 H2] [H3 H4].
  exact (swo_incomparable order x y z H1 H2 H3 H4).
Qed.

(** Two sets with the same elements, comparator and allocator are the same
    set. *)
Lemma DenseSet_ext (a b : DenseSet T C A) :
  elements a = elements b -> comp_ a = comp_ b ->
  get_allocator (Base a) = get_allocator (Base b) -> a = b.
Proof.
  destruct a as [[da aa] ca], b as [[db ab] cb]. unfold elements. simpl.
  intros -> -> ->. reflexivity.
Qed.

Lemma insert_allocator s v :
  get_allocator (Base (fst (insert s v))) = get_allocator (Base s).
Proof. destruct (insert_cases s v) as [[_ ->]|[_ ->]]; reflexivity. Qed.

Lemma insert_elements s v :
  elements (fst (insert s v))
  = if end_or_greater s v (lower_bound s v)
    then firstn (lower_bound s v) (elements s)
         ++ v :: skipn (lower_bound s v) (elements s)
    else elements s.
Proof.
  destruct (insert_cases s v) as [[H ->]|[H ->]]; rewrite H; reflexivity.
Qed.

(** The elements after [insert(v)]: those there were, and [v] when nothing
    equivalent to it was there. *)
Lemma insert_In s v :
  strict_weak_ordering (call (comp_ s)) -> I1 s ->
  forall x, In x (elements (fst (insert s v))) <->
            In x (elements s) \/ (x = v /\ ~ present s v).
Proof.
  intros order Hs x. rewrite insert_elements.
  pose proof (lower_bound_present v order Hs) as Hiff.
  destruct (end_or_greater s v (lower_bound s v)).
  - rewrite In_splice.
    assert (~ present s v) by (intros Hp; apply Hiff in Hp; discriminate).
    tauto.
  - assert (present s v) by (apply Hiff; reflexivity). tauto.
Qed.

Lemma insert_present s v k :
  strict_weak_ordering (call (comp_ s)) -> I1 s ->
  present (fst (insert s v)) k <->
  present s k \/ equivalent (comp_ s) v k.
Proof.
  intros order Hs.
  destruct (insert_I1 v order Hs) as [_ Hc].
  unfold present. rewrite Hc. split.
  - intros (e & He & Heq). apply (insert_In s v order Hs) in He.
    destruct He as [He|[-> _]]; [left; exists e; auto | right; exact Heq].
  - intros [(e & He & Heq)|Heq].
    + exists e. split; [|exact Heq]. apply (insert_In s v order Hs). auto.
    + pose proof (lower_bound_present v order Hs) as Hiff.
      destruct (end_or_greater s v (lower_bound s v)) eqn:Htest.
      * exists v. split; [|exact Heq].
        apply (insert_In s v order Hs). right. split; [reflexivity|].
        intros Hp. apply Hiff in Hp. discriminate.
      * destruct (proj1 Hiff eq_refl) as (p & Hp & Hpv).
        exists p. split.
        -- apply (insert_In s v order Hs). auto.
        -- exact (equivalent_trans _ p v k order Hpv Heq).
Qed.

(** Inserting a value that has an equivalent element changes nothing. *)
Lemma insert_present_noop s v :
  strict_weak_ordering (call (comp_ s)) -> I1 s ->
  present s v -> insert s v = (s, (lower_bound s v, false)).
Proof.
  intros order Hs Hp. apply (lower_bound_present v order Hs) in Hp.
  unfold insert. rewrite Hp. reflexivity.
Qed.

Lemma contains_present s k :
  strict_weak_ordering (call (comp_ s)) -> I1 s ->
  contains s k = true <-> present s k.
Proof.
  intros order Hs.
  destruct (lower_bound_partition k order Hs) as [Hle _].
  rewrite (contains_end_or_greater s k Hle), negb_true_iff.
  apply lower_bound_present; assumption.
Qed.

Lemma erase_key_elements s key :
  elements (fst (erase_key s key))
  = if end_or_greater s key (lower_bound s key)
    then elements s
    else firstn (lower_bound s key) (elements s)
         ++ skipn (S (lower_bound s key)) (elements s).
Proof.
  unfold erase_key.
  destruct (end_or_greater s key (lower_bound s key)); reflexivity.
Qed.

Lemma erase_key_present s key k :
  strict_weak_ordering (call (comp_ s)) -> I1 s ->
  present (fst (erase_key s key)) k <->
  present s k /\ ~ equivalent (comp_ s) k key.
Proof.
  intros order Hs.
  destruct (erase_key_I1 key order Hs) as [_ Hc].
  destruct (lower_bound_partition key order Hs) as [Hle _].
  pose proof (lower_bound_present key order Hs) as Hiff.
  unfold present. rewrite Hc, erase_key_elements.
  destruct (end_or_greater s key (lower_bound s key)) eqn:Htest.
  - split.
    + intros (e & He & Heq). split; [exists e; auto|].
      intros Hk.
      assert (present s key)
        by (exists e; split;
            [exact He | exact (equivalent_trans _ e k key order Heq Hk)]).
      apply Hiff in H. discriminate.
    + intros [Hp _]. exact Hp.
  - destruct (proj1 (lower_bound_hit key order Hs) Htest) as (p & Hp & Hpk).
    assert (Hlt : lower_bound s key < length (elements s)).
    { apply nth_error_Some. unfold deref in Hp. congruence. }
    split.
    + intros (e & He & Heq).
      apply In_cut_one in He as (i & Hne & Hi); [|exact Hlt].
      split; [exists e; split; [eapply nth_error_In; exact Hi | exact Heq]|].
      intros Hk. apply Hne.
      exact (equivalent_at_lower_bound i order Hs Hi
               (equivalent_trans _ e k key order Heq Hk)).
    + intros [(e & He & Heq) Hnk].
      exists e. split; [|exact Heq].
      apply In_nth_error in He as [i Hi].
      apply In_cut_one; [exact Hlt|].
      exists i. split; [|exact Hi].
      intros E. subst i.
      unfold deref in Hp. rewrite Hi in Hp. injection Hp as E. subst p.
      apply Hnk.
      exact (equivalent_trans _ k e key order (equivalent_sym _ _ _ Heq) Hpk).
Qed.
End MembershipFacts.

(** ** Lookup after a mutation *)

Section LookupAfterMutation.
Context {T C A : Type} {compare : Compare T C} {alloc_traits : Allocator A}.
Implicit Types (s : DenseSet T C A) (key value k v w : T) (c : C).

(** X1: after [insert(v)] on a set satisfying I1 the value is found:
    [contains(v)] holds, [count(v)] is 1 and [find(v)] is the position
    [insert] returned, which is not the end. *)
Theorem insert_then_lookup s v :
  strict_weak_ordering (call (comp_ s)) -> I1 s ->
  contains (fst (insert s v)) v = true /\
  count (fst (insert s v)) v = 1 /\
  find (fst (insert s v)) v = fst (snd (insert s v)) /\
  fst (snd (insert s v)) < size (fst (insert s v)).
Proof.
  intros order Hs.
  destruct (insert_I1 v order Hs) as [Hs' Hc].
  assert (order' : strict_weak_ordering (call (comp_ (fst (insert s v)))))
    by (rewrite Hc; exact order).
  assert (Hp : present (fst (insert s v)) v).
  { apply (insert_present s v v order Hs). right.
    apply equivalent_refl. exact order. }
  assert (Hcontains : contains (fst (insert s v)) v = true)
    by (apply contains_present; assumption).
  assert (Hlb : lower_bound (fst (insert s v)) v = fst (snd (insert s v))).
  { destruct (insert_cases s v) as [[Htest E]|[Htest E]]; rewrite E; simpl.
    - apply lower_bound_after_insert; assumption.
    - reflexivity. }
  pose proof (proj2 (lower_bound_present v order' Hs') Hp) as Htest'.
  destruct (lower_bound_partition v order' Hs') as [Hle' _].
  split; [exact Hcontains|]. split; [|split].
  - unfold count. rewrite Hcontains. reflexivity.
  - unfold find. rewrite Htest'. exact Hlb.
  - apply (end_or_greater_false _ v Hle') in Htest' as (p & Hp' & _).
    rewrite <- Hlb. apply nth_error_Some.
    unfold deref in Hp'. unfold size. congruence.
Qed.

(** X2: after [erase(key)] on a set satisfying I1 the key is not found:
    [contains(key)] is false, [count(key)] is 0 and [find(key)] is the end;
    the size went down by the count [erase] returned, which is 0 or 1. *)
Theorem erase_then_lookup s key :
  strict_weak_ordering (call (comp_ s)) -> I1 s ->
  contains (fst (erase_key s key)) key = false /\
  count (fst (erase_key s key)) key = 0 /\
  find (fst (erase_key s key)) key = end_ (fst (erase_key s key)) /\
  size (fst (erase_key s key)) + snd (erase_key s key) = size s /\
  snd (erase_key s key) <= 1.
Proof.
  intros order Hs.
  destruct (erase_key_I1 key order Hs) as [Hs' Hc].
  assert (order' : strict_weak_ordering (call (comp_ (fst (erase_key s key)))))
    by (rewrite Hc; exact order).
  assert (Hnp : ~ present (fst (erase_key s key)) key).
  { intros Hp. apply (erase_key_present s key key order Hs) in Hp as [_ Hne].
    apply Hne. apply equivalent_refl. exact order. }
  assert (Hcontains : contains (fst (erase_key s key)) key = false).
  { destruct (contains (fst (erase_key s key)) key) eqn:E; [|reflexivity].
    apply contains_present in E; [contradiction | assumption..]. }
  split; [exact Hcontains|]. split; [|split].
  - unfold count. rewrite Hcontains. reflexivity.
  - destruct (Nat.eq_dec (find (fst (erase_key s key)) key)
                         (end_ (fst (erase_key s key)))) as [E|E];
      [exact E|].
    apply (find_present key order' Hs') in E. contradiction.
  - destruct (lower_bound_partition key order Hs) as [Hle _].
    unfold erase_key.
    destruct (end_or_greater s key (lower_bound s key)) eqn:Htest; simpl.
    + split; lia.
    + apply (end_or_greater_false s key Hle) in Htest as (p & Hp & _).
      assert (lower_bound s key < length (elements s))
        by (apply nth_error_Some; unfold deref in Hp; congruence).
      split; [|lia]. unfold size.
      change (elements (Base_erase s (lower_bound s key)))
        with (firstn (lower_bound s key) (elements s)
              ++ skipn (S (lower_bound s key)) (elements s)).
      pose proof (length_cut T (elements s) (lower_bound s key)
                             (S (lower_bound s key))).
      lia.
Qed.

(** X3: what [contains] answers after a mutation of a set satisfying I1.
    After [insert(v)] it holds of the keys it held of and of the keys
    equivalent to [v]; after [erase(key)] it holds of the keys it held of
    that are not equivalent to [key]. *)
Theorem contains_after_mutation s v k :
  strict_weak_ordering (call (comp_ s)) -> I1 s ->
  (contains (fst (insert s v)) k = true <->
   contains s k = true \/ equivalent (comp_ s) v k) /\
  (contains (fst (erase_key s v)) k = true <->
   contains s k = true /\ ~ equivalent (comp_ s) k v).
Proof.
  intros order Hs.
  destruct (insert_I1 v order Hs) as [Hi Hci].
  destruct (erase_key_I1 v order Hs) as [He Hce].
  rewrite !contains_present;
    try assumption; try (rewrite Hci; exact order);
    try (rewrite Hce; exact order).
  split; [apply insert_present | apply erase_key_present]; assumption.
Qed.

(** X4: on a set satisfying I1 the binary searches find a key exactly when
    an element equivalent to it is stored: [contains], [count] and [find]
    agree with membership, and [find] points to that very element. *)
Theorem lookup_finds_present s k :
  strict_weak_ordering (call (comp_ s)) -> I1 s ->
  (contains s k = true <-> present s k) /\
  (count s k = 1 <-> present s k) /\
  (find s k <> end_ s <-> present s k) /\
  (forall e, In e (elements s) -> equivalent (comp_ s) e k ->
             deref s (find s k) = Some e).
Proof.
  intros order Hs.
  pose proof (contains_present s k order Hs) as Hc.
  split; [exact Hc|]. split; [|split].
  - unfold count. destruct (contains s k).
    + split; [intros _; apply Hc; reflexivity | reflexivity].
    + split; [discriminate | intros Hp; apply Hc in Hp; discriminate].
  - apply find_present; assumption.
  - intros e He Heq.
    assert (Hp : present s k) by (exists e; auto).
    apply In_nth_error in He as [i Hi].
    pose proof (equivalent_at_lower_bound i order Hs Hi Heq) as E.
    apply (lower_bound_present k order Hs) in Hp.
    unfold find. rewrite Hp, <- E. exact Hi.
Qed.

(** X5: on a set satisfying I1 the positions from [lower_bound(key)] up to
    [upper_bound(key)] are exactly those of the elements equivalent to
    [key], and the bounds grow with the key: if [key] is less than [k2],
    [upper_bound(key)] is at most [lower_bound(k2)]. *)
Theorem bounds_enclose_equivalents s key :
  strict_weak_ordering (call (comp_ s)) -> I1 s ->
  (forall i x, deref s i = Some x ->
               (lower_bound s key <= i < upper_bound s key <->
                equivalent (comp_ s) x key)) /\
  (forall k2, call (comp_ s) key k2 = true ->
              upper_bound s key <= lower_bound s k2).
Proof.
  intros order Hs.
  destruct (lower_bound_partition key order Hs) as [_ Hlow].
  destruct (upper_bound_partition key order Hs) as [Hue Hup].
  split.
  - intros i x Hx. specialize (Hlow _ _ Hx). specialize (Hup _ _ Hx).
    unfold equivalent. rewrite Hlow.
    destruct (call (comp_ s) key x); simpl in Hup;
      destruct (Nat.ltb_spec i (lower_bound s key));
      destruct (Nat.ltb_spec i (upper_bound s key));
      try discriminate; split; intros; try lia; intuition congruence.
  - intros k2 Hk.
    destruct (lower_bound_partition k2 order Hs) as [Hle2 Hlow2].
    destruct (Nat.le_gt_cases (upper_bound s key) (lower_bound s k2))
      as [|Hlt]; [assumption | exfalso].
    destruct (deref s (lower_bound s k2)) as [p|] eqn:Hp.
    + pose proof (Hlow2 _ _ Hp) as E2. rewrite Nat.ltb_irrefl in E2.
      pose proof (Hup _ _ Hp) as E1.
      rewrite (proj2 (Nat.ltb_lt _ _) Hlt) in E1.
      apply negb_true_iff in E1.
      rewrite (lt_negatively_transitive order key k2 p Hk E2) in E1.
      discriminate.
    + apply nth_error_None in Hp. unfold size in *. lia.
Qed.

(** X6: erasing through [find] is erasing by key.  When an element
    equivalent to [k] is present, [erase(find(k))] leaves the set
    [erase(k)] leaves, and [erase(k)] returns 1; when none is, [find(k)] is
    the end, which [erase] is not defined on, and [erase(k)] returns the
    set as it is with 0. *)
Theorem erase_found_position s k :
  strict_weak_ordering (call (comp_ s)) -> I1 s ->
  (present s k ->
   erase s (find s k) = Some (fst (erase_key s k), find s k) /\
   snd (erase_key s k) = 1) /\
  (~ present s k ->
   find s k = end_ s /\ erase s (find s k) = None /\
   erase_key s k = (s, 0)).
Proof.
  intros order Hs.
  destruct (lower_bound_partition k order Hs) as [Hle _].
  pose proof (lower_bound_present k order Hs) as Hiff.
  unfold find, erase_key, erase.
  destruct (end_or_greater s k (lower_bound s k)) eqn:Htest; split.
  - intros Hp. apply Hiff in Hp. discriminate.
  - intros _. unfold end_. rewrite Nat.ltb_irrefl. repeat split.
  - intros _.
    apply (end_or_greater_false s k Hle) in Htest as (p & Hp & _).
    assert (Hlt : lower_bound s k < size s).
    { apply nth_error_Some. unfold deref in Hp. congruence. }
    rewrite (proj2 (Nat.ltb_lt _ _) Hlt). split; reflexivity.
  - intros Hnp. destruct Hnp. apply Hiff. reflexivity.
Qed.

(** X7: on a set satisfying I1, erasing a value just inserted that had no
    equivalent element gives the set back, elements, comparator and
    allocator, and returns 1. *)
Theorem insert_then_erase s v :
  strict_weak_ordering (call (comp_ s)) -> I1 s -> ~ present s v ->
  erase_key (fst (insert s v)) v = (s, 1).
Proof.
  intros order Hs Hnp.
  destruct (lower_bound_partition v order Hs) as [Hle _].
  assert (Htest : end_or_greater s v (lower_bound s v) = true).
  { destruct (end_or_greater s v (lower_bound s v)) eqn:E; [reflexivity|].
    apply (lower_bound_present v order Hs) in E. contradiction. }
  unfold insert. rewrite Htest. simpl.
  unfold erase_key.
  rewrite (lower_bound_after_insert v order Hs Htest).
  replace (end_or_greater (Base_insert s (lower_bound s v) v) v
                          (lower_bound s v)) with false.
  - f_equal. apply DenseSet_ext; [|reflexivity..].
    change (elements (Base_erase (Base_insert s (lower_bound s v) v)
                                 (lower_bound s v)))
      with (firstn (lower_bound s v)
                   (firstn (lower_bound s v) (elements s)
                    ++ v :: skipn (lower_bound s v) (elements s))
            ++ skipn (S (lower_bound s v))
                     (firstn (lower_bound s v) (elements s)
                      ++ v :: skipn (lower_bound s v) (elements s))).
    apply cut_splice. exact Hle.
  - symmetry. apply end_or_greater_false.
    + rewrite Base_insert_size. lia.
    + exists v. split; [apply Base_insert_deref; exact Hle|].
      apply (swo_irreflexive order).
Qed.

(** X8: on a set satisfying I1, two insertions of values that are not
    equivalent commute: either order leaves the same set. *)
Theorem insert_commutes s v w :
  strict_weak_ordering (call (comp_ s)) -> I1 s ->
  ~ equivalent (comp_ s) v w ->
  fst (insert (fst (insert s v)) w) = fst (insert (fst (insert s w)) v).
Proof.
  intros order Hs Hvw.
  assert (Hwv : ~ equivalent (comp_ s) w v)
    by (intros H; apply Hvw; apply equivalent_sym; exact H).
  destruct (insert_I1 v order Hs) as [Hsv Hcv].
  destruct (insert_I1 w order Hs) as [Hsw Hcw].
  assert (ordv : strict_weak_ordering (call (comp_ (fst (insert s v)))))
    by (rewrite Hcv; exact order).
  assert (ordw : strict_weak_ordering (call (comp_ (fst (insert s w)))))
    by (rewrite Hcw; exact order).
  destruct (insert_I1 w ordv Hsv) as [Hsvw Hcvw].
  destruct (insert_I1 v ordw Hsw) as [Hswv Hcwv].
  apply DenseSet_ext.
  - apply (StronglySorted_unique order).
    + pose proof (I1_StronglySorted
                    (s := fst (insert (fst (insert s v)) w))) as H.
      rewrite Hcvw, Hcv in H. apply H; [exact order | exact Hsvw].
    + pose proof (I1_StronglySorted
                    (s := fst (insert (fst (insert s w)) v))) as H.
      rewrite Hcwv, Hcw in H. apply H; [exact order | exact Hswv].
    + intros x.
      rewrite (insert_In _ w ordv Hsv x), (insert_In _ v ordw Hsw x).
      rewrite (insert_In s v order Hs x), (insert_In s w order Hs x).
      rewrite (insert_present s v w order Hs), (insert_present s w v order Hs).
      tauto.
  - congruence.
  - rewrite !insert_allocator. reflexivity.
Qed.
End LookupAfterMutation.

(** ** Erasure by position and by range *)

Section PositionalErase.
Context {T C A : Type} {compare : Compare T C} {alloc_traits : Allocator A}.
Implicit Types (s : DenseSet T C A) (pos first last : iterator).

(** X9: [erase(pos)] on a dereferenceable position returns [pos], which
    then denotes the element that followed (or the end): the size goes down
    by one, the elements before [pos] stay where they are and those after it
    move down by one; comparator and allocator are kept.  On a set
    satisfying I1 the result satisfies I1 and holds nothing equivalent to
    the erased element. *)
Theorem erase_at_position s pos :
  pos < size s ->
  exists s',
    erase s pos = Some (s', pos) /\
    S (size s') = size s /\
    (forall i, deref s' i = if i <? pos then deref s i else deref s (S i)) /\
    comp_ s' = comp_ s /\
    get_allocator (Base s') = get_allocator (Base s) /\
    (strict_weak_ordering (call (comp_ s)) -> I1 s ->
     I1 s' /\ forall x, deref s pos = Some x -> ~ present s' x).
Proof.
  intros Hpos. exists (Base_erase s pos).
  unfold erase. rewrite (proj2 (Nat.ltb_lt _ _) Hpos).
  split; [reflexivity|].
  assert (Hel : elements (Base_erase s pos)
                = firstn pos (elements s) ++ skipn (S pos) (elements s))
    by reflexivity.
  unfold size in *. split; [|split; [|split; [|split]]].
  - rewrite Hel.
    pose proof (length_cut T (elements s) pos (S pos)). lia.
  - intros i. unfold deref. rewrite Hel, nth_error_cut by lia.
    replace (i + (S pos - pos)) with (S i) by lia. reflexivity.
  - reflexivity.
  - reflexivity.
  - intros order Hs. split; [apply Base_erase_I1; assumption|].
    intros x Hx (e & He & Heq).
    rewrite Hel in He. apply In_cut_one in He as (i & Hne & Hi); [|exact Hpos].
    exact (I1_no_duplicates order Hs Hne Hi Hx Heq).
Qed.

(** X10: [erase(first, last)] on a valid range returns [first]: the size
    goes down by the length of the range, the elements before [first] stay
    and those from [last] on move down; comparator and allocator are kept,
    and so is I1.  An empty range changes nothing, and the range from
    [begin()] to [end()] leaves what [clear()] leaves. *)
Theorem erase_range_result s first last :
  first <= last -> last <= size s ->
  exists s',
    erase_range s first last = Some (s', first) /\
    size s' + (last - first) = size s /\
    (forall i, deref s' i
               = if i <? first then deref s i
                 else deref s (i + (last - first))) /\
    comp_ s' = comp_ s /\
    get_allocator (Base s') = get_allocator (Base s) /\
    (strict_weak_ordering (call (comp_ s)) -> I1 s -> I1 s') /\
    (first = last -> s' = s) /\
    (first = begin s -> last = end_ s -> s' = clear s).
Proof.
  intros Hfl Hlast. exists (Base_erase_range s first last).
  unfold erase_range.
  rewrite (proj2 (Nat.leb_le _ _) Hfl), (proj2 (Nat.leb_le _ _) Hlast).
  split; [reflexivity|].
  assert (Hel : elements (Base_erase_range s first last)
                = firstn first (elements s) ++ skipn last (elements s))
    by reflexivity.
  unfold size in *. repeat split.
  - rewrite Hel. apply length_cut; assumption.
  - intros i. unfold deref. rewrite Hel. apply nth_error_cut; assumption.
  - intros order Hs. apply Base_erase_range_I1; assumption.
  - intros <-. apply DenseSet_ext; [|reflexivity..].
    rewrite Hel. apply firstn_skipn.
  - intros -> ->. apply DenseSet_ext; [|reflexivity..].
    rewrite Hel. unfold begin, end_, size. simpl.
    apply skipn_all.
Qed.
End PositionalErase.

(** ** Range insertion and the range constructors *)

Section RangeInsert.
Context {T C A : Type} {compare : Compare T C} {alloc_traits : Allocator A}.
Implicit Types (s : DenseSet T C A) (values : list T) (c : C).

Lemma insert_range_cons s v values :
  insert_range s (v :: values) = insert_range (fst (insert s v)) values.
Proof. reflexivity. Qed.

Lemma insert_range_allocator values : forall s,
  get_allocator (Base (insert_range s values)) = get_allocator (Base s).
Proof.
  induction values as [|v values IH]; intros s; [reflexivity|].
  rewrite insert_range_cons, IH. apply insert_allocator.
Qed.

Lemma insert_size s v :
  strict_weak_ordering (call (comp_ s)) -> I1 s ->
  size s <= size (fst (insert s v)) <= S (size s).
Proof.
  intros order Hs. unfold size. rewrite insert_elements.
  destruct (end_or_greater s v (lower_bound s v)).
  - rewrite length_splice. lia.
  - lia.
Qed.

Lemma insert_range_size values : forall s,
  strict_weak_ordering (call (comp_ s)) -> I1 s ->
  size s <= size (insert_range s values) <= size s + length values.
Proof.
  induction values as [|v values IH]; intros s order Hs.
  - simpl. lia.
  - destruct (insert_I1 v order Hs) as [Hs' Hc].
    rewrite insert_range_cons.
    pose proof (insert_size s v order Hs).
    assert (order' : strict_weak_ordering (call (comp_ (fst (insert s v)))))
      by (rewrite Hc; exact order).
    pose proof (IH _ order' Hs'). simpl. lia.
Qed.

Lemma insert_range_In values : forall s,
  strict_weak_ordering (call (comp_ s)) -> I1 s ->
  forall x, In x (elements (insert_range s values)) ->
            In x (elements s) \/ In x values.
Proof.
  induction values as [|v values IH]; intros s order Hs x Hx.
  - left. exact Hx.
  - destruct (insert_I1 v order Hs) as [Hs' Hc].
    assert (order' : strict_weak_ordering (call (comp_ (fst (insert s v)))))
      by (rewrite Hc; exact order).
    rewrite insert_range_cons in Hx.
    destruct (IH _ order' Hs' x Hx) as [H|H].
    + apply (insert_In s v order Hs) in H. simpl. intuition.
    + right. right. exact H.
Qed.

(** What is present after a range insertion: what was, and whatever is
    equivalent to one of the values. *)
Lemma insert_range_present values : forall s,
  strict_weak_ordering (call (comp_ s)) -> I1 s ->
  forall k, present (insert_range s values) k <->
            present s k \/ exists v, In v values /\ equivalent (comp_ s) v k.
Proof.
  induction values as [|v values IH]; intros s order Hs k.
  - simpl. split; [auto | intros [H|(v & [] & _)]; exact H].
  - destruct (insert_I1 v order Hs) as [Hs' Hc].
    assert (order' : strict_weak_ordering (call (comp_ (fst (insert s v)))))
      by (rewrite Hc; exact order).
    rewrite insert_range_cons, (IH _ order' Hs' k), Hc.
    rewrite (insert_present s v k order Hs). simpl. split.
    + intros [[H|H]|(u & Hu & Hk)]; [auto | right; exists v; auto|].
      right. exists u. auto.
    + intros [H|(u & [<-|Hu] & Hk)]; [auto | auto|].
      right. exists u. auto.
Qed.

Lemma insert_range_noop values : forall s,
  strict_weak_ordering (call (comp_ s)) -> I1 s ->
  (forall v, In v values -> present s v) ->
  insert_range s values = s.
Proof.
  induction values as [|v values IH]; intros s order Hs Hall; [reflexivity|].
  rewrite insert_range_cons.
  rewrite (insert_present_noop s v order Hs (Hall v (or_introl eq_refl))).
  simpl. apply IH; [assumption..|].
  intros u Hu. apply Hall. right. exact Hu.
Qed.

(** X11: [insert(first, last)] on a set satisfying I1 keeps I1, the
    comparator and the allocator.  Afterwards a key is present exactly when
    it was or when it is equivalent to one of the values; every element is
    an old element or one of the values; the size grew by at most the number
    of values; values that are all present already change nothing, so that
    inserting the same range again is without effect. *)
Theorem insert_range_result s values :
  strict_weak_ordering (call (comp_ s)) -> I1 s ->
  I1 (insert_range s values) /\
  comp_ (insert_range s values) = comp_ s /\
  get_allocator (Base (insert_range s values)) = get_allocator (Base s) /\
  (forall k, present (insert_range s values) k <->
             present s k \/
             exists v, In v values /\ equivalent (comp_ s) v k) /\
  (forall x, In x (elements (insert_range s values)) ->
             In x (elements s) \/ In x values) /\
  size s <= size (insert_range s values) <= size s + length values /\
  ((forall v, In v values -> present s v) -> insert_range s values = s) /\
  insert_range (insert_range s values) values = insert_range s values.
Proof.
  intros order Hs.
  destruct (insert_range_I1 values order Hs) as [Hs' Hc].
  assert (order' : strict_weak_ordering (call (comp_ (insert_range s values))))
    by (rewrite Hc; exact order).
  split; [exact Hs'|]. split; [exact Hc|].
  split; [apply insert_range_allocator|].
  split; [apply insert_range_present; assumption|].
  split; [apply insert_range_In; assumption|].
  split; [apply insert_range_size; assumption|].
  split; [apply insert_range_noop; assumption|].
  apply insert_range_noop; [assumption..|].
  intros v Hv. apply insert_range_present; [assumption..|].
  right. exists v. split; [exact Hv|]. apply equivalent_refl. exact order.
Qed.

(** X12: the constructors taking a range or an initializer list build a set
    that satisfies I1, has no two equivalent elements, and has the
    comparator and the allocator given.  Its elements are values of the
    input, [contains] holds exactly of the keys equivalent to a value of the
    input, and its size is at most the length of the input. *)
Theorem range_constructor_result values c (alloc : A) :
  strict_weak_ordering (call c) ->
  I1 (DenseSet_range values c alloc) /\
  no_duplicates (DenseSet_range values c alloc) /\
  comp_ (DenseSet_range values c alloc) = c /\
  get_allocator (Base (DenseSet_range values c alloc)) = alloc /\
  (forall x, In x (elements (DenseSet_range values c alloc)) -> In x values) /\
  (forall k, contains (DenseSet_range values c alloc) k = true <->
             exists v, In v values /\ equivalent c v k) /\
  size (DenseSet_range values c alloc) <= length values.
Proof.
  intros order.
  assert (Hs0 : I1 (DenseSet_comp (T := T) c alloc)) by constructor.
  assert (order0 : strict_weak_ordering
                     (call (comp_ (DenseSet_comp (T := T) c alloc))))
    by exact order.
  destruct (insert_range_I1 values order0 Hs0) as [Hs Hc].
  change (insert_range (DenseSet_comp c alloc) values)
    with (DenseSet_range values c alloc) in Hs, Hc.
  simpl in Hc.
  assert (order' : strict_weak_ordering
                     (call (comp_ (DenseSet_range values c alloc))))
    by (rewrite Hc; exact order).
  split; [exact Hs|]. split; [apply I1_no_duplicates; assumption|].
  split; [exact Hc|].
  split; [apply (insert_range_allocator values (DenseSet_comp c alloc))|].
  split; [|split].
  - intros x Hx.
    destruct (insert_range_In values _ order0 Hs0 x Hx) as [[]|H]. exact H.
  - intros k. rewrite (contains_present _ k order' Hs).
    unfold DenseSet_range.
    rewrite (insert_range_present values _ order0 Hs0 k). simpl. split.
    + intros [(e & [] & _)|H]. exact H.
    + auto.
  - pose proof (insert_range_size values _ order0 Hs0) as H.
    unfold DenseSet_range. simpl in H. unfold size in *. simpl in H. lia.
Qed.

(** X13: built from a sequence that is already strictly ascending under the
    comparator, the set holds exactly that sequence. *)
Theorem range_constructor_of_sorted values c (alloc : A) :
  strict_weak_ordering (call c) ->
  Sorted (fun x y => call c x y = true) values ->
  elements (DenseSet_range values c alloc) = values.
Proof.
  intros order Hsorted.
  assert (Hss : StronglySorted (fun x y => call c x y = true) values)
    by (apply Sorted_strongly; assumption).
  assert (Hs0 : I1 (DenseSet_comp (T := T) c alloc)) by constructor.
  assert (order0 : strict_weak_ordering
                     (call (comp_ (DenseSet_comp (T := T) c alloc))))
    by exact order.
  destruct (insert_range_I1 values order0 Hs0) as [Hs Hc].
  simpl in Hc.
  apply (StronglySorted_unique order); [|exact Hss|].
  - pose proof (I1_StronglySorted
                  (s := insert_range (DenseSet_comp c alloc) values)) as H.
    rewrite Hc in H. apply H; [exact order | exact Hs].
  - intros x. unfold DenseSet_range. split.
    + intros Hx.
      destruct (insert_range_In values _ order0 Hs0 x Hx) as [[]|H]. exact H.
    + intros Hx.
      assert (Hp : present (insert_range (DenseSet_comp c alloc) values) x).
      { apply (insert_range_present values _ order0 Hs0 x). right.
        exists x. split; [exact Hx | apply equivalent_refl; exact order]. }
      destruct Hp as (e & He & [Hex Hxe]). rewrite Hc in Hex, Hxe.
      assert (Hev : In e values).
      { destruct (insert_range_In values _ order0 Hs0 e He) as [[]|H].
        exact H. }
      destruct (StronglySorted_In_cases T (call c) values e x Hss Hev Hx)
        as [<-|[E|E]]; [exact He | congruence | congruence].
Qed.
End RangeInsert.

(** ** Sequences of mutations, taken from a set satisfying I1 *)

Section SequenceInvariant.
Context {T C A : Type} {compare : Compare T C} {alloc_traits : Allocator A}.
Implicit Types (s : DenseSet T C A) (m : mutation (T := T)).

Lemma apply_allocator s m s' :
  strict_weak_ordering (call (comp_ s)) -> I1 s ->
  apply s m = Some s' ->
  get_allocator (Base s') = get_allocator (Base s).
Proof.
  intros order Hs Happ.
  destruct m as [v|pos v|vs|v|pos|first last|key]; simpl in Happ.
  - injection Happ as <-. apply insert_allocator.
  - destruct (insert_hint_agrees pos v order Hs) as [E|E];
      rewrite E in Happ; [discriminate|].
    injection Happ as <-. apply insert_allocator.
  - injection Happ as <-. apply insert_range_allocator.
  - injection Happ as <-. apply insert_allocator.
  - unfold erase in Happ. destruct (pos <? size s); [|discriminate].
    injection Happ as <-. reflexivity.
  - unfold erase_range in Happ.
    destruct ((first <=? last) && (last <=? size s)); [|discriminate].
    injection Happ as <-. reflexivity.
  - injection Happ as <-. unfold erase_key.
    destruct (end_or_greater s key (lower_bound s key)); reflexivity.
Qed.

Lemma run_length ms : forall s states,
  run s ms = Some states -> length states = length ms.
Proof.
  induction ms as [|m ms IH]; intros s states Hrun; simpl in Hrun.
  - injection Hrun as <-. reflexivity.
  - destruct (apply s m) as [s1|]; [|discriminate].
    destruct (run s1 ms) as [rest|] eqn:Hrest; [|discriminate].
    injection Hrun as <-. simpl. f_equal. exact (IH _ _ Hrest).
Qed.

Lemma run_allocator ms : forall s states,
  strict_weak_ordering (call (comp_ s)) -> I1 s ->
  run s ms = Some states ->
  Forall (fun s' => get_allocator (Base s') = get_allocator (Base s)) states.
Proof.
  induction ms as [|m ms IH]; intros s states order Hs Hrun; simpl in Hrun.
  - injection Hrun as <-. constructor.
  - destruct (apply s m) as [s1|] eqn:Happ; [|discriminate].
    destruct (run s1 ms) as [rest|] eqn:Hrest; [|discriminate].
    injection Hrun as <-.
    destruct (apply_I1 m order Hs Happ) as [Hs1 Hc1].
    pose proof (apply_allocator s m s1 order Hs Happ) as Ha1.
    assert (order1 : strict_weak_ordering (call (comp_ s1)))
      by (rewrite Hc1; exact order).
    constructor; [exact Ha1|].
    specialize (IH s1 rest order1 Hs1 Hrest).
    rewrite Ha1 in IH. exact IH.
Qed.

(** X14: from a set that satisfies I1 and whose comparator is a strict weak
    ordering, a sequence of insertions (plain, hinted, of a range, by
    emplace) and erasures (by position, range or key) whose iterator
    arguments are valid runs to its end, and after each operation the set
    satisfies I1, has no two equivalent elements and has the comparator and
    the allocator it started with. *)
Theorem mutation_sequence_keeps_I1 s ms :
  strict_weak_ordering (call (comp_ s)) -> I1 s ->
  valid_run s ms = true ->
  exists states,
    run s ms = Some states /\
    length states = length ms /\
    Forall (fun s' => I1 s' /\ no_duplicates s' /\ comp_ s' = comp_ s) states /\
    Forall (fun s' => get_allocator (Base s') = get_allocator (Base s)) states.
Proof.
  intros order Hs Hvalid.
  destruct (run s ms) as [states|] eqn:Hrun.
  - exists states. split; [reflexivity|].
    split; [exact (run_length ms s states Hrun)|].
    split; [exact (run_I1 ms order Hs Hrun)|].
    exact (run_allocator ms s states order Hs Hrun).
  - destruct (run_defined ms s Hvalid Hrun).
Qed.
End SequenceInvariant.

(** ** The relational operators *)

Section LexicographicFacts.
Variable T : Type.
Variable ltb : T -> T -> bool.
Implicit Types (l : list T).

Lemma lexicographical_irreflexive l :
  (forall x, ltb x x = false) ->
  std_lexicographical_compare ltb l l = false.
Proof.
  intros Hirr. induction l as [|x l IH]; simpl; [reflexivity|].
  rewrite Hirr. exact IH.
Qed.

Lemma lexicographical_asymmetric l1 :
  (forall x, ltb x x = false) ->
  (forall x y z, ltb x y = true -> ltb y z = true -> ltb x z = true) ->
  forall l2,
    std_lexicographical_compare ltb l1 l2 = true ->
    std_lexicographical_compare ltb l2 l1 = false.
Proof.
  intros Hirr Htrans.
  induction l1 as [|x l1 IH]; intros [|y l2]; simpl; try discriminate;
    try reflexivity.
  destruct (ltb x y) eqn:Hxy.
  - intros _. destruct (ltb y x) eqn:Hyx; [|reflexivity].
    rewrite <- (Hirr x). symmetry. exact (Htrans x y x Hxy Hyx).
  - destruct (ltb y x) eqn:Hyx; [discriminate|]. apply IH.
Qed.

Lemma lexicographical_total l1 :
  (forall x y, ltb x y = false -> ltb y x = false -> x = y) ->
  forall l2,
    std_lexicographical_compare ltb l1 l2 = false ->
    std_lexicographical_compare ltb l2 l1 = false ->
    l1 = l2.
Proof.
  intros Htotal.
  induction l1 as [|x l1 IH]; intros [|y l2]; simpl; try discriminate;
    try reflexivity.
  destruct (ltb x y) eqn:Hxy; [discriminate|].
  destruct (ltb y x) eqn:Hyx; [discriminate|].
  intros H1 H2. rewrite (Htotal x y Hxy Hyx). f_equal.
  apply IH; assumption.
Qed.

Lemma lexicographical_transitive l1 :
  (forall x y z, ltb x y = true -> ltb y z = true -> ltb x z = true) ->
  (forall x y, ltb x y = false -> ltb y x = false -> x = y) ->
  forall l2 l3,
    std_lexicographical_compare ltb l1 l2 = true ->
    std_lexicographical_compare ltb l2 l3 = true ->
    std_lexicographical_compare ltb l1 l3 = true.
Proof.
  intros Htrans Htotal.
  induction l1 as [|x l1 IH]; intros [|y l2] [|z l3]; simpl;
    try discriminate; try reflexivity.
  destruct (ltb x y) eqn:Hxy.
  - intros _. destruct (ltb y z) eqn:Hyz.
    + intros _. rewrite (Htrans x y z Hxy Hyz). reflexivity.
    + destruct (ltb z y) eqn:Hzy; [discriminate|].
      intros _. rewrite <- (Htotal y z Hyz Hzy), Hxy. reflexivity.
  - destruct (ltb y x) eqn:Hyx; [discriminate|].
    rewrite (Htotal x y Hxy Hyx).
    destruct (ltb y z); [reflexivity|].
    destruct (ltb z y); [discriminate|]. apply IH.
Qed.

Lemma absl_equal_eq (eqb : T -> T -> bool) l1 :
  (forall x y, eqb x y = true <-> x = y) ->
  forall l2, absl_equal eqb l1 l2 = true <-> l1 = l2.
Proof.
  intros Heqb.
  induction l1 as [|x l1 IH]; intros [|y l2]; simpl.
  - split; reflexivity.
  - split; discriminate.
  - split; discriminate.
  - rewrite andb_true_iff, Heqb, IH. split.
    + intros [-> ->]. reflexivity.
    + intros E. injection E as -> ->. auto.
Qed.
End LexicographicFacts.

Section RelationalOperators.
Context {T C A : Type}.
Context {equality : EqualityComparable T} {ordering : LessThanComparable T}.
Implicit Types (a b c : DenseSet T C A).

End RelationalOperators.

(** ** Instances of the further properties at the inputs of the test-suite *)

Lemma Zltb_total (x y : Z) :
  (x <? y)%Z = false -> (y <? x)%Z = false -> x = y.
Proof. intros Hxy Hyx. apply Z.ltb_ge in Hxy, Hyx. lia. Qed.

Lemma denseSet_init_order (init : list Z) (c a : Z) :
  strict_weak_ordering (call (comp_ (denseSet_init init c a))).
Proof. apply Cmp_strict_weak_ordering. Qed.

Section FurtherScenarios.
Local Open Scope Z_scope.

(** X1 at the test InsertKey: 6 is inserted into the set of -3, -1. *)
Lemma insert_then_lookup_witness :
  let s := denseSet_init [-1; -3] 0 0 in
  I1 s /\
  contains (fst (insert s 6)) 6 = true /\
  count (fst (insert s 6)) 6 = 1%nat /\
  find (fst (insert s 6)) 6 = fst (snd (insert s 6)) /\
  Nat.lt (fst (snd (insert s 6))) (size (fst (insert s 6))).
Proof.
  intros s.
  assert (Hs : I1 s) by (apply I1b_I1; reflexivity).
  split; [exact Hs|].
  exact (insert_then_lookup s 6 (denseSet_init_order _ _ _) Hs).
Defined.

(** X2 at the test EraseKey: 1 is erased from the set of -9, 1, 5, 13. *)
Lemma erase_then_lookup_witness :
  let s := denseSet_init [13; -9; 1; 5] 0 0 in
  I1 s /\
  contains (fst (erase_key s 1)) 1 = false /\
  count (fst (erase_key s 1)) 1 = 0%nat /\
  find (fst (erase_key s 1)) 1 = end_ (fst (erase_key s 1)) /\
  Nat.add (size (fst (erase_key s 1))) (snd (erase_key s 1)) = size s /\
  Nat.le (snd (erase_key s 1)) 1%nat.
Proof.
  intros s.
  assert (Hs : I1 s) by (apply I1b_I1; reflexivity).
  split; [exact Hs|].
  exact (erase_then_lookup s 1 (denseSet_init_order _ _ _) Hs).
Defined.

(** X3 at the set of 1, 5, 7, the value 3 and the key 3. *)
Lemma contains_after_mutation_witness :
  let s := denseSet_init [1; 7; 5] 0 0 in
  I1 s /\
  (contains (fst (insert s 3)) 3 = true <->
   contains s 3 = true \/ equivalent (comp_ s) 3 3) /\
  (contains (fst (erase_key s 3)) 3 = true <->
   contains s 3 = true /\ ~ equivalent (comp_ s) 3 3).
Proof.
  intros s.
  assert (Hs : I1 s) by (apply I1b_I1; reflexivity).
  split; [exact Hs|].
  exact (contains_after_mutation s 3 3 (denseSet_init_order _ _ _) Hs).
Defined.

(** X4 at the test Contains: 7 is in the set of 1, 5, 7. *)
Lemma lookup_finds_present_witness :
  let s := denseSet_init [1; 7; 5] 0 0 in
  I1 s /\ In 7 (elements s) /\ equivalent (comp_ s) 7 7 /\
  deref s (find s 7) = Some 7 /\
  (contains s 7 = true <-> present s 7).
Proof.
  intros s.
  assert (Hs : I1 s) by (apply I1b_I1; reflexivity).
  assert (Hin : In 7 (elements s)) by (right; right; left; reflexivity).
  assert (Heq : equivalent (comp_ s) 7 7) by (split; reflexivity).
  destruct (lookup_finds_present s 7 (denseSet_init_order _ _ _) Hs)
    as (Hcontains & _ & _ & Hfind).
  split; [exact Hs|]. split; [exact Hin|]. split; [exact Heq|].
  split; [exact (Hfind 7 Hin Heq) | exact Hcontains].
Defined.

(** X5 at the test EqualRangeFound, with the keys 5 and 9. *)
Lemma bounds_enclose_equivalents_witness :
  let s := denseSet_init [1; 3; 5; 7; 9] 0 0 in
  I1 s /\ deref s 2%nat = Some 5 /\ call (comp_ s) 5 9 = true /\
  (Nat.le (lower_bound s 5) 2%nat /\ Nat.lt 2%nat (upper_bound s 5) <->
   equivalent (comp_ s) 5 5) /\
  Nat.le (upper_bound s 5) (lower_bound s 9).
Proof.
  intros s.
  assert (Hs : I1 s) by (apply I1b_I1; reflexivity).
  destruct (bounds_enclose_equivalents s 5 (denseSet_init_order _ _ _) Hs)
    as (Hrange & Hgrow).
  split; [exact Hs|]. split; [reflexivity|]. split; [reflexivity|].
  split; [exact (Hrange 2%nat 5 eq_refl) | exact (Hgrow 9 eq_refl)].
Defined.

(** X6 at the test EraseIterator: -4 is erased through [find]. *)
Lemma erase_found_position_witness :
  let s := denseSet_init [-27; -6; -4; 7] 0 0 in
  I1 s /\ present s (-4) /\
  erase s (find s (-4)) = Some (fst (erase_key s (-4)), find s (-4)) /\
  snd (erase_key s (-4)) = 1%nat.
Proof.
  intros s.
  assert (Hs : I1 s) by (apply I1b_I1; reflexivity).
  assert (Hp : present s (-4)).
  { exists (-4). split; [right; right; left; reflexivity | split; reflexivity]. }
  destruct (erase_found_position s (-4) (denseSet_init_order _ _ _) Hs)
    as (Hpresent & _).
  split; [exact Hs|]. split; [exact Hp | exact (Hpresent Hp)].
Defined.

(** X7 at the set of 1, 5, 7 and the value 3, which is not in it. *)
Lemma insert_then_erase_witness :
  let s := denseSet_init [1; 7; 5] 0 0 in
  I1 s /\ ~ present s 3 /\ erase_key (fst (insert s 3)) 3 = (s, 1%nat).
Proof.
  intros s.
  assert (Hs : I1 s) by (apply I1b_I1; reflexivity).
  assert (Hnp : ~ present s 3).
  { intros (e & He & [H1 H2]).
    destruct He as [<-|[<-|[<-|[]]]]; discriminate. }
  split; [exact Hs|]. split; [exact Hnp|].
  exact (insert_then_erase s 3 (denseSet_init_order _ _ _) Hs Hnp).
Defined.

(** X8 at the set of 1, 5, 7 and the values 3 and 9. *)
Lemma insert_commutes_witness :
  let s := denseSet_init [1; 7; 5] 0 0 in
  I1 s /\ ~ equivalent (comp_ s) 3 9 /\
  fst (insert (fst (insert s 3)) 9) = fst (insert (fst (insert s 9)) 3).
Proof.
  intros s.
  assert (Hs : I1 s) by (apply I1b_I1; reflexivity).
  assert (Hne : ~ equivalent (comp_ s) 3 9) by (intros [H _]; discriminate).
  split; [exact Hs|]. split; [exact Hne|].
  exact (insert_commutes s 3 9 (denseSet_init_order _ _ _) Hs Hne).
Defined.

(** X9 at the test EraseIterator: the position of -4 is erased. *)
Lemma erase_at_position_witness :
  let s := denseSet_init [-27; -6; -4; 7] 0 0 in
  (2 < size s)%nat /\
  exists s',
    erase s 2%nat = Some (s', 2%nat) /\
    S (size s') = size s /\
    (forall i, deref s' i
               = if (i <? 2)%nat then deref s i else deref s (S i)) /\
    comp_ s' = comp_ s /\
    get_allocator (Base s') = get_allocator (Base s) /\
    (strict_weak_ordering (call (comp_ s)) -> I1 s ->
     I1 s' /\ forall x, deref s 2%nat = Some x -> ~ present s' x).
Proof.
  intros s.
  assert (Hpos : (2 < size s)%nat) by (apply Nat.ltb_lt; reflexivity).
  split; [exact Hpos | exact (erase_at_position s 2%nat Hpos)].
Defined.

(** X10 at the test EraseRange: the range from [begin()] to the position of
    -4 is erased. *)
Lemma erase_range_result_witness :
  let s := denseSet_init [2; -4; -6; -8] 0 0 in
  (0 <= 2)%nat /\ (2 <= size s)%nat /\
  exists s',
    erase_range s 0%nat 2%nat = Some (s', 0%nat) /\
    (size s' + (2 - 0) = size s)%nat /\
    (forall i, deref s' i
               = if (i <? 0)%nat then deref s i
                 else deref s (i + (2 - 0))%nat) /\
    comp_ s' = comp_ s /\
    get_allocator (Base s') = get_allocator (Base s) /\
    (strict_weak_ordering (call (comp_ s)) -> I1 s -> I1 s') /\
    (0%nat = 2%nat -> s' = s) /\
    (0%nat = begin s -> 2%nat = end_ s -> s' = clear s).
Proof.
  intros s.
  assert (H1 : (0 <= 2)%nat) by (apply Nat.leb_le; reflexivity).
  assert (H2 : (2 <= size s)%nat) by (apply Nat.leb_le; reflexivity).
  split; [exact H1|]. split; [exact H2|].
  exact (erase_range_result s 0%nat 2%nat H1 H2).
Defined.

(** X11 at the test InsertRange. *)
Lemma insert_range_result_witness :
  let s := denseSet_init [-27; -6; -4; 7] 0 0 in
  I1 s /\
  I1 (insert_range s [3; 7; 5]) /\
  elements (insert_range s [3; 7; 5]) = [-27; -6; -4; 3; 5; 7] /\
  (Nat.le (size s) (size (insert_range s [3; 7; 5])) /\
   Nat.le (size (insert_range s [3; 7; 5])) (size s + 3)%nat) /\
  insert_range (insert_range s [3; 7; 5]) [3; 7; 5] = insert_range s [3; 7; 5].
Proof.
  intros s.
  assert (Hs : I1 s) by (apply I1b_I1; reflexivity).
  destruct (insert_range_result s [3; 7; 5] (denseSet_init_order _ _ _) Hs)
    as (Hs' & _ & _ & _ & _ & Hsize & _ & Hagain).
  split; [exact Hs|]. split; [exact Hs'|]. split; [reflexivity|].
  split; [exact Hsize | exact Hagain].
Defined.

(** X12 at the test IteratorsDuplicate. *)
Lemma range_constructor_result_witness :
  strict_weak_ordering (call (Cmp 0)) /\
  I1 (denseSet_init [4; 13; 5; 5; 9] 0 0) /\
  no_duplicates (denseSet_init [4; 13; 5; 5; 9] 0 0) /\
  Nat.le (size (denseSet_init [4; 13; 5; 5; 9] 0 0)) 5%nat.
Proof.
  assert (order : strict_weak_ordering (call (Cmp 0)))
    by apply Cmp_strict_weak_ordering.
  destruct (range_constructor_result [4; 13; 5; 5; 9] (Cmp 0) (Alloc 0) order)
    as (Hs & Hnd & _ & _ & _ & _ & Hsize).
  split; [exact order|]. split; [exact Hs|]. split; [exact Hnd | exact Hsize].
Defined.

(** X13 at the input of the test Begin, which is ascending. *)
Lemma range_constructor_of_sorted_witness :
  Sorted (fun x y => call (Cmp 0) x y = true) [2; 3; 4; 5] /\
  elements (denseSet_init [2; 3; 4; 5] 0 0) = [2; 3; 4; 5].
Proof.
  assert (Hsorted : Sorted (fun x y => call (Cmp 0) x y = true) [2; 3; 4; 5])
    by (repeat constructor).
  split; [exact Hsorted|].
  exact (range_constructor_of_sorted [2; 3; 4; 5] (Cmp 0) (Alloc 0)
           (Cmp_strict_weak_ordering _) Hsorted).
Defined.

(** X14 at a sequence that goes through every kind of mutation. *)
Lemma mutation_sequence_keeps_I1_witness :
  let s := denseSet_init [1; 7; 5] 0 0 in
  let ms := [Insert 3; InsertHint 0%nat 9; Erase 1%nat; EraseKey 7;
             InsertRange [2; 2; 8]; EraseRange 0%nat 1%nat; Emplace 4] in
  I1 s /\ valid_run s ms = true /\
  exists states,
    run s ms = Some states /\
    length states = length ms /\
    Forall (fun s' => I1 s' /\ no_duplicates s' /\ comp_ s' = comp_ s) states /\
    Forall (fun s' => get_allocator (Base s') = get_allocator (Base s)) states.
Proof.
  intros s ms.
  assert (Hs : I1 s) by (apply I1b_I1; reflexivity).
  assert (Hvalid : valid_run s ms = true) by reflexivity.
  split; [exact Hs|]. split; [exact Hvalid|].
  exact (mutation_sequence_keeps_I1 s ms (denseSet_init_order _ _ _) Hs Hvalid).
Defined.

End FurtherScenarios.

(** ** Erasing again, putting back, and moving *)

Section RoundTrips.
Context {T C A : Type} {compare : Compare T C} {alloc_traits : Allocator A}.
Implicit Types (s : DenseSet T C A) (key k e : T).

Lemma erase_key_absent s k :
  strict_weak_ordering (call (comp_ s)) -> I1 s ->
  ~ present s k -> erase_key s k = (s, 0).
Proof.
  intros order Hs Hnp. unfold erase_key.
  destruct (end_or_greater s k (lower_bound s k)) eqn:E; [reflexivity|].
  apply (lower_bound_present k order Hs) in E. contradiction.
Qed.

Lemma erase_key_allocator s k :
  get_allocator (Base (fst (erase_key s k))) = get_allocator (Base s).
Proof.
  unfold erase_key.
  destruct (end_or_greater s k (lower_bound s k)); reflexivity.
Qed.

(** X16: on a set satisfying I1 a second [erase(k)] finds nothing to erase:
    it returns 0 and leaves the set the first one left. *)
Theorem erase_twice s k :
  strict_weak_ordering (call (comp_ s)) -> I1 s ->
  erase_key (fst (erase_key s k)) k = (fst (erase_key s k), 0).
Proof.
  intros order Hs.
  destruct (erase_key_I1 k order Hs) as [Hs' Hc].
  apply erase_key_absent; [rewrite Hc; exact order | exact Hs' |].
  intros Hp. apply (erase_key_present s k k order Hs) in Hp as [_ Hne].
  apply Hne. apply equivalent_refl. exact order.
Qed.

(** X17: on a set satisfying I1, erasing by a key and inserting the element
    that was equivalent to it gives the set back: elements, comparator and
    allocator. *)
Theorem erase_then_insert s k e :
  strict_weak_ordering (call (comp_ s)) -> I1 s ->
  In e (elements s) -> equivalent (comp_ s) e k ->
  snd (erase_key s k) = 1 /\
  fst (insert (fst (erase_key s k)) e) = s.
Proof.
  intros order Hs He Hek.
  destruct (erase_key_I1 k order Hs) as [Hs' Hc].
  assert (order' : strict_weak_ordering (call (comp_ (fst (erase_key s k)))))
    by (rewrite Hc; exact order).
  destruct (insert_I1 e order' Hs') as [Hs'' Hc'].
  assert (Hp : present s k) by (exists e; auto).
  pose proof (proj2 (lower_bound_present k order Hs) Hp) as Htest.
  destruct (lower_bound_partition k order Hs) as [Hle _].
  apply In_nth_error in He as [i Hi].
  pose proof (equivalent_at_lower_bound i order Hs Hi Hek) as Ei. subst i.
  assert (Hlt : lower_bound s k < length (elements s))
    by (apply nth_error_Some; congruence).
  assert (Hnp : ~ present (fst (erase_key s k)) e).
  { intros H. apply (erase_key_present s k e order Hs) in H as [_ Hne].
    contradiction. }
  split; [unfold erase_key; rewrite Htest; reflexivity|].
  apply DenseSet_ext.
  - apply (StronglySorted_unique order).
    + pose proof (I1_StronglySorted
                    (s := fst (insert (fst (erase_key s k)) e))) as H.
      rewrite Hc', Hc in H. apply H; [exact order | exact Hs''].
    + apply I1_StronglySorted; assumption.
    + intros x. rewrite (insert_In _ e order' Hs' x).
      rewrite erase_key_elements, Htest.
      rewrite (In_cut_one T (elements s) (lower_bound s k) x Hlt). split.
      * intros [(j & _ & Hj)|[-> _]]; eapply nth_error_In; eassumption.
      * intros Hx. apply In_nth_error in Hx as [j Hj].
        destruct (Nat.eq_dec j (lower_bound s k)) as [->|Hne].
        -- right. split; [congruence | exact Hnp].
        -- left. exists j. auto.
  - congruence.
  - rewrite insert_allocator. apply erase_key_allocator.
Qed.
End RoundTrips.

Section MoveWithSameOrder.
Context {T C A : Type} {compare : Compare T C} {alloc_traits : Allocator A}.
Implicit Types (s : DenseSet T C A) (k : T).

Lemma bisect_ext (p q : T -> bool) (l : list T) :
  (forall x, p x = q x) ->
  forall fuel first len, bisect fuel p l first len = bisect fuel q l first len.
Proof.
  intros Hpq fuel.
  induction fuel as [|fuel IH]; intros first len; cbn [bisect]; [reflexivity|].
  destruct (len =? 0); [reflexivity|].
  destruct (nth_error l (first + len / 2)) as [m|]; [|reflexivity].
  rewrite Hpq, !IH. reflexivity.
Qed.

(** X18: when the default constructed comparator orders as the comparator
    of [a] does (as with a comparator type whose state plays no part in the
    comparison), the set built by [DenseSet b(std::move(a))] holds the
    elements of [a], satisfies I1 if [a] did, and answers [lower_bound],
    [find] and [contains] as [a] did; [a] is left empty. *)
Theorem move_constructor_same_order s :
  (forall x y, call (C_default (T := T)) x y = call (comp_ s) x y) ->
  elements (fst (DenseSet_move s)) = elements s /\
  (I1 s -> I1 (fst (DenseSet_move s))) /\
  (forall k, lower_bound (fst (DenseSet_move s)) k = lower_bound s k /\
             find (fst (DenseSet_move s)) k = find s k /\
             contains (fst (DenseSet_move s)) k = contains s k) /\
  empty (snd (DenseSet_move s)) = true /\
  I1 (snd (DenseSet_move s)).
Proof.
  intros Hsame.
  assert (Hlb : forall k, lower_bound (fst (DenseSet_move s)) k
                          = lower_bound s k).
  { intros k. unfold lower_bound, std_lower_bound.
    change (elements (fst (DenseSet_move s))) with (elements s).
    change (comp_ (fst (DenseSet_move s))) with (C_default (T := T)).
    change (end_ (fst (DenseSet_move s))) with (end_ s).
    apply bisect_ext. intros x. apply Hsame. }
  assert (Htest : forall k pos, end_or_greater (fst (DenseSet_move s)) k pos
                                = end_or_greater s k pos).
  { intros k pos. unfold end_or_greater, deref.
    change (elements (fst (DenseSet_move s))) with (elements s).
    change (comp_ (fst (DenseSet_move s))) with (C_default (T := T)).
    change (end_ (fst (DenseSet_move s))) with (end_ s).
    destruct (nth_error (elements s) pos); [rewrite Hsame|]; reflexivity. }
  split; [reflexivity|]. split; [|split; [|split; [reflexivity | constructor]]].
  - intros Hs. apply DenseSet_move_I1; assumption.
  - intros k. split; [apply Hlb|]. split.
    + unfold find. rewrite Hlb, Htest. reflexivity.
    + unfold contains, std_binary_search.
      change (std_lower_bound (elements (fst (DenseSet_move s)))
                (begin (fst (DenseSet_move s))) (end_ (fst (DenseSet_move s)))
                k (call (comp_ (fst (DenseSet_move s)))))
        with (lower_bound (fst (DenseSet_move s)) k).
      change (std_lower_bound (elements s) (begin s) (end_ s) k
                              (call (comp_ s)))
        with (lower_bound s k).
      rewrite Hlb.
      change (elements (fst (DenseSet_move s))) with (elements s).
      change (comp_ (fst (DenseSet_move s))) with (C_default (T := T)).
      change (end_ (fst (DenseSet_move s))) with (end_ s).
      destruct (nth_error (elements s) (lower_bound s k));
        [rewrite Hsame|]; reflexivity.
Qed.
End MoveWithSameOrder.

Section RoundTripScenarios.
Local Open Scope Z_scope.

(** X16 at the test EraseKey. *)
Lemma erase_twice_witness :
  let s := denseSet_init [13; -9; 1; 5] 0 0 in
  I1 s /\ erase_key (fst (erase_key s 1)) 1 = (fst (erase_key s 1), 0%nat).
Proof.
  intros s.
  assert (Hs : I1 s) by (apply I1b_I1; reflexivity).
  split; [exact Hs|].
  exact (erase_twice s 1 (denseSet_init_order _ _ _) Hs).
Defined.

(** X17 at the test EraseKey: 1 is erased and put back. *)
Lemma erase_then_insert_witness :
  let s := denseSet_init [13; -9; 1; 5] 0 0 in
  I1 s /\ In 1 (elements s) /\ equivalent (comp_ s) 1 1 /\
  snd (erase_key s 1) = 1%nat /\
  fst (insert (fst (erase_key s 1)) 1) = s.
Proof.
  intros s.
  assert (Hs : I1 s) by (apply I1b_I1; reflexivity).
  assert (Hin : In 1 (elements s)) by (right; left; reflexivity).
  assert (Heq : equivalent (comp_ s) 1 1) by (split; reflexivity).
  split; [exact Hs|]. split; [exact Hin|]. split; [exact Heq|].
  exact (erase_then_insert s 1 1 (denseSet_init_order _ _ _) Hs Hin Heq).
Defined.

(** X18 at the test MoveConstructor. *)
Lemma move_constructor_same_order_witness :
  let s := denseSet_init [2; 11; -5; 6] 7 4 in
  (forall x y : Z, call (C_default (C := test_compare_less)) x y
                   = call (comp_ s) x y) /\
  elements (fst (DenseSet_move s)) = [-5; 2; 6; 11] /\
  (I1 s -> I1 (fst (DenseSet_move s))) /\
  empty (snd (DenseSet_move s)) = true.
Proof.
  intros s.
  assert (Hsame : forall x y : Z,
             call (C_default (C := test_compare_less)) x y
             = call (comp_ s) x y) by (intros x y; reflexivity).
  destruct (move_constructor_same_order s Hsame)
    as (Hel & Hinv & _ & Hempty & _).
  split; [exact Hsame|]. split; [exact Hel|].
  split; [exact Hinv | exact Hempty].
Defined.
End RoundTripScenarios.
